(** * muninnbot: the join-screening engine and the name index

    A shallow embedding of [muninnbot/wellknown.py], [muninnbot/namemonitor.py]
    and [muninnbot/bot.py].

    Conventions of the embedding.
    - Python [str] values (user ids, event ids, room ids, server names,
      display names) are [string]; [dict]s are [gmap]s and [set]s are [gset]s.
      Iteration order of dicts and sets is not modelled: no statement below
      depends on it.
    - A Python exception that leaves a function is a value of [exn]; in-place
      mutation that happened before the exception stays in the state.
    - [str.lower] is modelled on the ASCII range ([A]-[Z]); other bytes are
      left alone. *)

From Stdlib Require Import ZArith QArith Lia Lqa String Ascii List.
From stdpp Require Import base option gmap strings list fin_maps fin_sets.

#[local] Open Scope string_scope.
#[local] Open Scope Z_scope.

Abbreviation UserID := string (only parsing).
Abbreviation EventID := string (only parsing).
Abbreviation RoomID := string (only parsing).

(** Python exceptions that the modelled code can raise. *)
Inductive exn : Type :=
| KeyError
| ValueError
| FetchFailure
| SendFailure
| GetEventFailure
| RedactFailure.

#[global] Instance exn_eq_dec : EqDecision exn.
Proof. solve_decision. Defined.

(** ** Types of the chat-protocol client

    The fields of the client library's event and content classes that the
    bot reads or writes. *)

Module Mautrix.

Inductive Membership : Type := JOIN | LEAVE | BAN | INVITE | KNOCK.

#[global] Instance Membership_eq_dec : EqDecision Membership.
Proof. solve_decision. Defined.

Inductive RelationType : Type := ANNOTATION | REFERENCE | REPLACE | THREAD.

#[global] Instance RelationType_eq_dec : EqDecision RelationType.
Proof. solve_decision. Defined.

Inductive MessageType : Type := TEXT | NOTICE.

#[global] Instance MessageType_eq_dec : EqDecision MessageType.
Proof. solve_decision. Defined.

(** [Member] *)
Record Member : Type := mkMember {
  m_membership : Membership;
  m_avatar_url : option string;
  m_displayname : option string
}.

(** A membership [StateEvent] as the JOIN, LEAVE and BAN handlers read it;
    [se_timeline] is [evt.source & SyncStream.TIMELINE]. *)
Record StateEvent : Type := mkStateEvent {
  se_timeline : bool;
  se_room_id : string;
  se_sender : string;
  se_event_id : string;
  se_membership : Membership;
  se_avatar_url : option string;
  se_displayname : option string
}.

(** A command [MessageEvent] *)
Record MessageEvent : Type := mkMessageEvent {
  msg_room_id : string;
  msg_sender : string;
  msg_event_id : string
}.

(** A [ReactionEvent]; [re_target] is [content.relates_to.event_id]. *)
Record ReactionEvent : Type := mkReactionEvent {
  re_room_id : string;
  re_sender : string;
  re_rel_type : RelationType;
  re_key : string;
  re_target : string
}.

(** An event returned by [client.get_event]; [ev_verified] is
    [content.get(VERIFIED_APPLICATION_SENDER_KEY)]. *)
Record Event : Type := mkEvent {
  ev_room_id : string;
  ev_sender : string;
  ev_verified : option string
}.

(** A [TextMessageEventContent] as the bot builds it: [c_html] is the text
    given to [parse_formatted], [c_mentions] the [m.mentions] user ids,
    [c_verified] the value under [VERIFIED_APPLICATION_SENDER_KEY] and
    [c_reply_to] the event replied to. *)
Record Content : Type := mkContent {
  c_msgtype : MessageType;
  c_html : string;
  c_mentions : list string;
  c_verified : option string;
  c_reply_to : option string
}.

#[global] Instance Content_eq_dec : EqDecision Content.
Proof. solve_decision. Defined.

End Mautrix.

(** ** namemonitor.py *)

Module Namemonitor.
Import Mautrix.

(** *** Strings: the regular expressions and [str] methods of [parse_name] *)

Definition newline : ascii := "010"%char.

Definition is_separator (c : ascii) : bool :=
  (c =? ",")%char || (c =? " ")%char || (c =? "/")%char.

(** What [(.+?)]] still has to match once the first character of the group
    is consumed: the shortest run of non-newline characters followed by a
    closing bracket.  Returns the rest of the group and the text after the
    bracket. *)
Fixpoint lazy_group (s : string) : option (string * string) :=
  match s with
  | EmptyString => None
  | String c t =>
      if (c =? "]")%char then Some (EmptyString, t)
      else if (c =? newline)%char then None
      else match lazy_group t with
           | Some (g, r) => Some (String c g, r)
           | None => None
           end
  end.

(** [bracket_regex] anchored at the head of [s]: an opening bracket, one
    character that is not a newline, then [lazy_group]. *)
Definition match_at (s : string) : option (string * string) :=
  match s with
  | String b (String c t) =>
      if (b =? "[")%char && negb (c =? newline)%char then
        match lazy_group t with
        | Some (g, r) => Some (String c g, r)
        | None => None
        end
      else None
  | _ => None
  end.

(** [bracket_regex.finditer(s)], as the list of [group(1)] of the matches:
    leftmost matches, not overlapping, scanning resumes after a match. *)
Fixpoint finditer_fuel (n : nat) (s : string) : list string :=
  match n with
  | O => []
  | S n' =>
      match s with
      | EmptyString => []
      | String _ t =>
          match match_at s with
          | Some (g, r) => g :: finditer_fuel n' r
          | None => finditer_fuel n' t
          end
      end
  end.

Definition finditer (s : string) : list string :=
  finditer_fuel (String.length s) s.

(** [separator_regex.split(s)] *)
Fixpoint separator_split (s : string) : list string :=
  match s with
  | EmptyString => [EmptyString]
  | String c t =>
      if is_separator c then EmptyString :: separator_split t
      else match separator_split t with
           | w :: ws => String c w :: ws
           | [] => [String c EmptyString]
           end
  end.

(** ["." in word] *)
Fixpoint contains_dot (w : string) : bool :=
  match w with
  | EmptyString => false
  | String c t => (c =? ".")%char || contains_dot t
  end.

Definition lower_char (c : ascii) : ascii :=
  let n := nat_of_ascii c in
  if (65 <=? n)%nat && (n <=? 90)%nat then ascii_of_nat (n + 32) else c.

Fixpoint lower (s : string) : string :=
  match s with
  | EmptyString => EmptyString
  | String c t => String (lower_char c) (lower t)
  end.

(** The text before and after the last dot of [w], if [w] has a dot. *)
Fixpoint split_last_dot (w : string) : option (string * string) :=
  match w with
  | EmptyString => None
  | String c t =>
      match split_last_dot t with
      | Some (d, tld) => Some (String c d, tld)
      | None => if (c =? ".")%char then Some (EmptyString, t) else None
      end
  end.

(** [word.rsplit(".", 1)] *)
Definition rsplit1 (w : string) : list string :=
  match split_last_dot w with
  | Some (d, tld) => [d; tld]
  | None => [w]
  end.

(** *** The name index *)

Record NameMonitor : Type := mkNameMonitor {
  tlds : gset string;
  member_names : gmap string string;
  mxid_to_servers : gmap string (gset string);
  server_to_mxids : gmap string (gset string);
  excluded_members : gset string
}.

Definition set_member_names (f : gmap string string → gmap string string)
    (nm : NameMonitor) : NameMonitor :=
  mkNameMonitor (tlds nm) (f (member_names nm)) (mxid_to_servers nm)
    (server_to_mxids nm) (excluded_members nm).

Definition set_mxid_to_servers
    (f : gmap string (gset string) → gmap string (gset string))
    (nm : NameMonitor) : NameMonitor :=
  mkNameMonitor (tlds nm) (member_names nm) (f (mxid_to_servers nm))
    (server_to_mxids nm) (excluded_members nm).

Definition set_server_to_mxids
    (f : gmap string (gset string) → gmap string (gset string))
    (nm : NameMonitor) : NameMonitor :=
  mkNameMonitor (tlds nm) (member_names nm) (mxid_to_servers nm)
    (f (server_to_mxids nm)) (excluded_members nm).

Definition set_excluded_members (x : gset string) (nm : NameMonitor)
    : NameMonitor :=
  mkNameMonitor (tlds nm) (member_names nm) (mxid_to_servers nm)
    (server_to_mxids nm) x.

(** [NameMonitor.__init__] *)
Definition init : NameMonitor := mkNameMonitor ∅ ∅ ∅ ∅ ∅.

(** A method of [NameMonitor]: it runs on the object, returns a value or
    raises, and leaves the object as mutated so far. *)
Definition M (A : Type) : Type := NameMonitor → (A + exn) * NameMonitor.

Definition ret {A} (a : A) : M A := fun nm => (inl a, nm).
Definition raise {A} (e : exn) : M A := fun nm => (inr e, nm).
Definition bind {A B} (k : A → M B) (m : M A) : M B :=
  fun nm =>
    match m nm with
    | (inl a, nm') => k a nm'
    | (inr e, nm') => (inr e, nm')
    end.
#[global] Instance M_ret : MRet M := @ret.
#[global] Instance M_bind : MBind M := @bind.
Definition modify (f : NameMonitor → NameMonitor) : M unit :=
  fun nm => (inl tt, f nm).
Definition gets {A} (f : NameMonitor → A) : M A :=
  fun nm => (inl (f nm), nm).

(** [for x in xs: body(x)] *)
Fixpoint for_each {A} (xs : list A) (body : A → M unit) : M unit :=
  match xs with
  | [] => ret tt
  | x :: xs' => body x;; for_each xs' body
  end.

(** [parse_name]; [name] is [None] when the event carries no display name.
    The unpacking [domain, tld = ...] raises [ValueError] unless [rsplit]
    gave two parts. *)
Fixpoint parse_words (tl : gset string) (words : list string)
    (output : gset string) : gset string + exn :=
  match words with
  | [] => inl output
  | word :: rest =>
      if negb (contains_dot word) then parse_words tl rest output
      else
        let word := lower word in
        match rsplit1 word with
        | [domain; tld] =>
            if bool_decide (domain = EmptyString) || bool_decide (tld ∉ tl)
            then parse_words tl rest output
            else parse_words tl rest ({[word]} ∪ output)
        | _ => inr ValueError
        end
  end.

Fixpoint parse_chunks (tl : gset string) (chunks : list string)
    (output : gset string) : gset string + exn :=
  match chunks with
  | [] => inl output
  | chunk :: rest =>
      match parse_words tl (separator_split chunk) output with
      | inl output' => parse_chunks tl rest output'
      | inr e => inr e
      end
  end.

Definition parse_name (tl : gset string) (name : option string)
    : gset string + exn :=
  parse_chunks tl (finditer (default EmptyString name)) ∅.

(** [_remove_member_from_server]; [set.remove] raises [KeyError] when the
    element is missing. *)
Definition _remove_member_from_server (server user_id : string) : M unit :=
  server_mxids ← gets (A := option (gset string))
                    (fun nm => server_to_mxids nm !! server);
  match server_mxids with
  | Some mxids =>
      if decide (mxids = ∅) then ret tt
      else if decide (user_id ∈ mxids) then
        modify (set_server_to_mxids <[server := mxids ∖ {[user_id]}]>);;
        if decide (mxids ∖ {[user_id]} = ∅)
        then modify (set_server_to_mxids (delete server))
        else ret tt
      else raise KeyError
  | None => ret tt
  end.

(** [_add_member_to_server] *)
Definition _add_member_to_server (server user_id : string) : M unit :=
  modify (set_server_to_mxids (fun m =>
    <[server := default ∅ (m !! server) ∪ {[user_id]}]> m)).

(** [_update_member] *)
Definition _update_member (user_id : string) (new_servers : gset string)
    : M unit :=
  old_servers ← gets (A := gset string)
                   (fun nm => default ∅ (mxid_to_servers nm !! user_id));
  modify (set_mxid_to_servers <[user_id := new_servers]>);;
  if decide (new_servers = old_servers) then ret tt
  else
    for_each (elements (old_servers ∖ new_servers))
      (fun server => _remove_member_from_server server user_id);;
    for_each (elements (new_servers ∖ old_servers))
      (fun server => _add_member_to_server server user_id).

(** [_remove_member] *)
Definition _remove_member (user_id : string) : M unit :=
  servers ← gets (A := gset string)
               (fun nm => default ∅ (mxid_to_servers nm !! user_id));
  modify (set_mxid_to_servers (delete user_id));;
  for_each (elements servers)
    (fun server => _remove_member_from_server server user_id).

(** The fields of an [m.room.member] state event that the handler reads. *)
Record MemberEvent : Type := mkMemberEvent {
  me_room_id : string;
  me_state_key : string;
  me_membership : Membership;
  me_displayname : option string
}.

(** [x or y] on an optional string *)
Definition str_or (x : option string) (y : string) : string :=
  match x with
  | Some s => if decide (s = EmptyString) then y else s
  | None => y
  end.

Definition lift_pure {A} (r : A + exn) : M A :=
  match r with inl a => ret a | inr e => raise e end.

(** [NameMonitor.handle_member]; [main_room] is [config["main_room"]]. *)
Definition handle_member (main_room : string) (evt : MemberEvent) : M unit :=
  if decide (me_room_id evt ≠ main_room) then ret tt
  else
    let user_id := me_state_key evt in
    excluded ← gets excluded_members;
    if decide (user_id ∈ excluded) then ret tt
    else if decide (me_membership evt ≠ JOIN) then _remove_member user_id
    else
      modify (set_member_names
                <[user_id := str_or (me_displayname evt) user_id]>);;
      tl ← gets tlds;
      new_servers ← lift_pure (parse_name tl (me_displayname evt));
      _update_member user_id new_servers.

(** The body of the loop of [load_members], for one item of the snapshot
    returned by [get_joined_members]: a user id and a display name. *)
Definition load_member (item : string * option string) : M unit :=
  let '(user_id, displayname) := item in
  excluded ← gets excluded_members;
  if decide (user_id ∈ excluded) then ret tt
  else
    modify (set_member_names <[user_id := str_or displayname user_id]>);;
    tl ← gets tlds;
    new_servers ← lift_pure (parse_name tl displayname);
    _update_member user_id new_servers.

(** [load_members], from the reply of [get_joined_members] on. *)
Definition load_members (members : list (string * option string)) : M unit :=
  for_each members load_member.

(** [read_config] *)
Definition read_config (excluded : list string) : M unit :=
  modify (set_excluded_members (list_to_set excluded)).

(** [self.member_names[user_id]] for each of [user_ids]; a missing key
    raises [KeyError]. *)
Fixpoint names_of (nm : NameMonitor) (user_ids : list string)
    : list string + exn :=
  match user_ids with
  | [] => inl []
  | user_id :: rest =>
      match member_names nm !! user_id with
      | Some n =>
          match names_of nm rest with
          | inl names => inl (n :: names)
          | inr e => inr e
          end
      | None => inr KeyError
      end
  end.

(** The name lookups of [get_member_directory]: one for every key of
    [mxid_to_servers]. *)
Definition directory_names (nm : NameMonitor) : list string + exn :=
  names_of nm (elements (dom (mxid_to_servers nm))).

(** The name lookups of [ping_users_without_server_in_name]: one for every
    key of [mxid_to_servers] whose set of servers is empty. *)
Definition ping_names (nm : NameMonitor) : list string + exn :=
  names_of nm
    (elements (dom (filter (fun kv => kv.2 = ∅) (mxid_to_servers nm)))).


(** *** Sequences of operations on the index *)

Inductive op : Type :=
| OnMember (evt : MemberEvent)
| OnLoadMembers (members : list (string * option string))
| OnReadConfig (excluded : list string).

Definition apply_op (main_room : string) (o : op) : M unit :=
  match o with
  | OnMember evt => handle_member main_room evt
  | OnLoadMembers members => load_members members
  | OnReadConfig excluded => read_config excluded
  end.

(** The object after the operations, run one after the other; an operation
    that raises leaves the object as it is at that point, and the next one
    runs on it. *)
Definition run_ops (main_room : string) (nm : NameMonitor) (ops : list op)
    : NameMonitor :=
  fold_left (fun nm o => (apply_op main_room o nm).2) ops nm.

(** No operation of the sequence raises. *)
Fixpoint all_return (main_room : string) (nm : NameMonitor) (ops : list op)
    : Prop :=
  match ops with
  | [] => True
  | o :: rest =>
      (apply_op main_room o nm).1 = inl tt
      ∧ all_return main_room (apply_op main_room o nm).2 rest
  end.

(** The members of [server_to_mxids[server]] and the servers of
    [mxid_to_servers[user_id]], empty when the key is missing. *)
Definition mxids_of (nm : NameMonitor) (server : string) : gset string :=
  default ∅ (server_to_mxids nm !! server).
Definition servers_of (nm : NameMonitor) (user_id : string) : gset string :=
  default ∅ (mxid_to_servers nm !! user_id).

Definition bidirectional (nm : NameMonitor) : Prop :=
  ∀ s u, u ∈ mxids_of nm s ↔ s ∈ servers_of nm u.

Definition no_empty_server (nm : NameMonitor) : Prop :=
  ∀ s mxids, server_to_mxids nm !! s = Some mxids → mxids ≠ ∅.

Definition names_cover (nm : NameMonitor) : Prop :=
  dom (mxid_to_servers nm) ⊆ dom (member_names nm).

(** The operation does not write a name for [user_id]: it is no join event
    of [user_id] and no snapshot that lists [user_id]. *)
Definition keeps_name (user_id : string) (o : op) : Prop :=
  match o with
  | OnMember evt => me_state_key evt ≠ user_id ∨ me_membership evt ≠ JOIN
  | OnLoadMembers members => user_id ∉ members.*1
  | OnReadConfig _ => True
  end.

(** The fields that the server loops leave alone. *)
Definition same_frame (nm nm' : NameMonitor) : Prop :=
  tlds nm' = tlds nm ∧ member_names nm' = member_names nm
  ∧ mxid_to_servers nm' = mxid_to_servers nm
  ∧ excluded_members nm' = excluded_members nm.

(** The invariant of the two server mappings. *)
Definition index_inv (nm : NameMonitor) : Prop :=
  bidirectional nm ∧ no_empty_server nm.

(** *** What the specification says of [parse_name] *)





(** [token] has a dot, its label before the last dot is not empty and its
    TLD after the last dot, in lower case, is in the TLD set. *)
Definition accepted (tl : gset string) (token : string) : Prop :=
  ∃ label tld,
    token = label ++ "." ++ tld
    ∧ contains_dot tld = false
    ∧ label ≠ EmptyString
    ∧ lower tld ∈ tl.


Fixpoint has_char (c : ascii) (s : string) : bool :=
  match s with
  | EmptyString => false
  | String d t => (d =? c)%char || has_char c t
  end.


End Namemonitor.

(** ** wellknown.py: the data classes *)

Module Wellknown.

Record SupportContact : Type := mkSupportContact {
  role : string;
  email_address : string;
  matrix_id : string
}.

Record SupportWellKnown : Type := mkSupportWellKnown {
  contacts : list SupportContact;
  support_page : string
}.

(** [SupportWellKnown.has_contact] *)
Definition has_contact (wk : SupportWellKnown) (user_id : string) : bool :=
  existsb (fun contact => bool_decide (matrix_id contact = user_id))
          (contacts wk).

(** What the HTTP session gives for [sess.get(url)]: the request fails
    ([ConnectionError]) or a response arrives.  [body] is what
    [SupportWellKnown.deserialize(await resp.json(content_type=None))]
    makes of the response body, [None] when decoding or deserialising
    raises. *)
Inductive HttpReply : Type :=
| ConnectionError
| Response (status : Z) (body : option SupportWellKnown).

(** [resp.raise_for_status()] raises when the response is not [ok], and the
    HTTP client documents [ok] as [status < 400]. *)
Definition raise_for_status (status : Z) : bool := 400 <=? status.

End Wellknown.

(** ** Coroutines

    An [async def] is a tree of its steps.  [Get], [Put], [Monotonic],
    [Log] and [Release] do not suspend; [HttpGet], [SendMessage],
    [GetEvent] and [Redact] are awaited calls of the HTTP session and of the
    client, which suspend the coroutine until the reply is there; [Acquire]
    suspends while the lock is held. *)

Module Async.
Import Mautrix Wellknown.

Inductive LogEntry : Type :=
| LogRateLimited
| LogFetchFailed (server_name : string)
| LogGetEventFailed (reaction_target : string).

Inductive prog (S A : Type) : Type :=
| Ret (a : A)
| Raise (e : exn)
| Get (k : S → prog S A)
| Put (s : S) (k : prog S A)
| Monotonic (k : Q → prog S A)
| Log (l : LogEntry) (k : prog S A)
| Acquire (k : prog S A)
| Release (k : prog S A)
| HttpGet (url : string) (k : HttpReply → prog S A)
| SendMessage (room_id : string) (content : Content)
    (k : string + exn → prog S A)
| GetEvent (room_id event_id : string) (k : Event + exn → prog S A)
| Redact (room_id event_id reason : string) (k : unit + exn → prog S A).

Arguments Ret {S A} a.
Arguments Raise {S A} e.
Arguments Get {S A} k.
Arguments Put {S A} s k.
Arguments Monotonic {S A} k.
Arguments Log {S A} l k.
Arguments Acquire {S A} k.
Arguments Release {S A} k.
Arguments HttpGet {S A} url k.
Arguments SendMessage {S A} room_id content k.
Arguments GetEvent {S A} room_id event_id k.
Arguments Redact {S A} room_id event_id reason k.

Fixpoint bind {S A B} (f : A → prog S B) (p : prog S A) : prog S B :=
  match p with
  | Ret a => f a
  | Raise e => Raise e
  | Get k => Get (fun s => bind f (k s))
  | Put s k => Put s (bind f k)
  | Monotonic k => Monotonic (fun t => bind f (k t))
  | Log l k => Log l (bind f k)
  | Acquire k => Acquire (bind f k)
  | Release k => Release (bind f k)
  | HttpGet url k => HttpGet url (fun r => bind f (k r))
  | SendMessage room c k => SendMessage room c (fun r => bind f (k r))
  | GetEvent room e k => GetEvent room e (fun r => bind f (k r))
  | Redact room e rs k => Redact room e rs (fun r => bind f (k r))
  end.

#[global] Instance prog_ret {S} : MRet (prog S) := fun A => @Ret S A.
#[global] Instance prog_bind {S} : MBind (prog S) := fun A B => @bind S A B.
#[global] Arguments prog_ret {S} A a /.
#[global] Arguments prog_bind {S} A B f p /.

(** [try: p except Exception: h] *)
Fixpoint try_except {S A} (p : prog S A) (h : exn → prog S A) : prog S A :=
  match p with
  | Ret a => Ret a
  | Raise e => h e
  | Get k => Get (fun s => try_except (k s) h)
  | Put s k => Put s (try_except k h)
  | Monotonic k => Monotonic (fun t => try_except (k t) h)
  | Log l k => Log l (try_except k h)
  | Acquire k => Acquire (try_except k h)
  | Release k => Release (try_except k h)
  | HttpGet url k => HttpGet url (fun r => try_except (k r) h)
  | SendMessage room c k => SendMessage room c (fun r => try_except (k r) h)
  | GetEvent room e k => GetEvent room e (fun r => try_except (k r) h)
  | Redact room e rs k => Redact room e rs (fun r => try_except (k r) h)
  end.

(** [async with lock: body]: the lock is released when the body returns and
    when it raises. *)
Definition with_lock {S A} (body : prog S A) : prog S A :=
  Acquire (try_except (a ← body; Release (Ret a))
                      (fun e => Release (Raise e))).

Definition get {S} : prog S S := Get Ret.
Definition modify {S} (f : S → S) : prog S unit :=
  Get (fun s => Put (f s) (Ret tt)).
Definition monotonic {S} : prog S Q := Monotonic Ret.
Definition log {S} (l : LogEntry) : prog S unit := Log l (Ret tt).

(** An awaited client call that raises what the client raised. *)
Definition await {S A} (r : A + exn) : prog S A :=
  match r with inl a => Ret a | inr e => Raise e end.

(** *** Running one coroutine to its end

    The replies of the outside world are given in the order in which the
    coroutine asks for them. *)

Inductive input : Type :=
| InClock (t : Q)
| InHttp (r : HttpReply)
| InSend (r : string + exn)
| InEvent (r : Event + exn)
| InRedact (r : unit + exn).

(** What the coroutine did, in order, with the replies it got. *)
Inductive action : Type :=
| ALog (l : LogEntry)
| AHttpGet (url : string) (r : HttpReply)
| ASend (room_id : string) (content : Content) (r : string + exn)
| AGetEvent (room_id event_id : string) (r : Event + exn)
| ARedact (room_id event_id reason : string) (r : unit + exn).

(** [Stuck]: the coroutine waits for the lock, or for a reply that the
    given inputs do not hold. *)
Inductive outcome (A : Type) : Type :=
| Returned (a : A)
| Raised (e : exn)
| Stuck.

Arguments Returned {A} a.
Arguments Raised {A} e.
Arguments Stuck {A}.

Record result (S A : Type) : Type := mkResult {
  final : S;
  locked : bool;
  trace : list action;
  out : outcome A;
  unused : list input
}.

Arguments mkResult {S A}.
Arguments final {S A}.
Arguments locked {S A}.
Arguments trace {S A}.
Arguments out {S A}.
Arguments unused {S A}.

Definition did {S A} (a : action) (r : result S A) : result S A :=
  mkResult (final r) (locked r) (a :: trace r) (out r) (unused r).

Fixpoint exec {S A} (p : prog S A) (inputs : list input) (s : S)
    (lk : bool) : result S A :=
  match p with
  | Ret a => mkResult s lk [] (Returned a) inputs
  | Raise e => mkResult s lk [] (Raised e) inputs
  | Get k => exec (k s) inputs s lk
  | Put s' k => exec k inputs s' lk
  | Monotonic k =>
      match inputs with
      | InClock t :: rest => exec (k t) rest s lk
      | _ => mkResult s lk [] Stuck inputs
      end
  | Log l k => did (ALog l) (exec k inputs s lk)
  | Acquire k =>
      if lk then mkResult s lk [] Stuck inputs else exec k inputs s true
  | Release k => exec k inputs s false
  | HttpGet url k =>
      match inputs with
      | InHttp r :: rest => did (AHttpGet url r) (exec (k r) rest s lk)
      | _ => mkResult s lk [] Stuck inputs
      end
  | SendMessage room c k =>
      match inputs with
      | InSend r :: rest => did (ASend room c r) (exec (k r) rest s lk)
      | _ => mkResult s lk [] Stuck inputs
      end
  | GetEvent room e k =>
      match inputs with
      | InEvent r :: rest => did (AGetEvent room e r) (exec (k r) rest s lk)
      | _ => mkResult s lk [] Stuck inputs
      end
  | Redact room e rs k =>
      match inputs with
      | InRedact r :: rest => did (ARedact room e rs r) (exec (k r) rest s lk)
      | _ => mkResult s lk [] Stuck inputs
      end
  end.

(** *** Interleaved coroutines

    The event loop runs one coroutine at a time, from where it stands to its
    next suspension; in between, any other coroutine may run.  A system is
    the shared state, the lock, the clock and the coroutines started so far,
    each with the event it handles. *)

Inductive call : Type :=
| CHttpGet (url : string)
| CSend (room_id : string) (content : Content)
| CGetEvent (room_id event_id : string)
| CRedact (room_id event_id reason : string).

(** The call a suspended coroutine waits for. *)
Definition pending_call {S A} (p : prog S A) : option call :=
  match p with
  | HttpGet url _ => Some (CHttpGet url)
  | SendMessage room c _ => Some (CSend room c)
  | GetEvent room e _ => Some (CGetEvent room e)
  | Redact room e rs _ => Some (CRedact room e rs)
  | _ => None
  end.

(** Runs [p] up to its next suspension: an awaited call, the lock when it is
    held, or the end.  Returns what is left of [p], the state, the lock and
    the log entries written. *)
Fixpoint advance {S A} (p : prog S A) (s : S) (lk : bool) (clock : Q)
    : prog S A * S * bool * list LogEntry :=
  match p with
  | Get k => advance (k s) s lk clock
  | Put s' k => advance k s' lk clock
  | Monotonic k => advance (k clock) s lk clock
  | Log l k =>
      let '(p', s', lk', ls) := advance k s lk clock in (p', s', lk', l :: ls)
  | Acquire k => if lk then (p, s, lk, []) else advance k s true clock
  | Release k => advance k s false clock
  | _ => (p, s, lk, [])
  end.

(** The coroutine can take a step without a reply from outside. *)
Definition runnable {S A} (p : prog S A) (lk : bool) : bool :=
  match p with
  | Get _ | Put _ _ | Monotonic _ | Log _ _ | Release _ => true
  | Acquire _ => negb lk
  | _ => false
  end.

(** The continuation of a coroutine suspended at a call, for a reply of the
    kind the call expects, with the action to record. *)
Definition resume {S A} (p : prog S A) (r : input) : option (action * prog S A) :=
  match p, r with
  | HttpGet url k, InHttp x => Some (AHttpGet url x, k x)
  | SendMessage room c k, InSend x => Some (ASend room c x, k x)
  | GetEvent room e k, InEvent x => Some (AGetEvent room e x, k x)
  | Redact room e rs k, InRedact x => Some (ARedact room e rs x, k x)
  | _, _ => None
  end.

Inductive item : Type :=
| Issued (c : call)
| Completed (a : action).

Record system (S E : Type) : Type := mkSystem {
  sys_state : S;
  sys_lock : bool;
  sys_clock : Q;
  sys_tasks : list (E * prog S unit);
  sys_log : list (E * item)
}.

Arguments mkSystem {S E}.
Arguments sys_state {S E}.
Arguments sys_lock {S E}.
Arguments sys_clock {S E}.
Arguments sys_tasks {S E}.
Arguments sys_log {S E}.

(** What the outside world and the event loop do: deliver an event, whose
    handler starts as a new coroutine and runs to its first suspension; let
    coroutine [i], which waits for the lock, run; give coroutine [i] the
    reply it waits for; let time pass. *)
Inductive step (E : Type) : Type :=
| Deliver (e : E)
| Run (i : nat)
| Reply (i : nat) (r : input)
| Tick (d : Q).

Arguments Deliver {E} e.
Arguments Run {E} i.
Arguments Reply {E} i r.
Arguments Tick {E} d.

Section scheduler.
Context {S E : Type} (handler : E → prog S unit).

(** Coroutine [i], standing at [p], runs to its next suspension. *)
Definition run_task (sys : system S E) (i : nat) (e : E) (p : prog S unit)
    (done : list (E * item)) : system S E :=
  let '(p', s', lk', ls) :=
    advance p (sys_state sys) (sys_lock sys) (sys_clock sys) in
  mkSystem s' lk' (sys_clock sys) (<[i := (e, p')]> (sys_tasks sys))
    (sys_log sys ++ done ++ map (fun l => (e, Completed (ALog l))) ls
     ++ match pending_call p' with
        | Some c => [(e, Issued c)]
        | None => []
        end).

(** A step that does not apply (no such coroutine, a coroutine that cannot
    run, a reply of the wrong kind, time going back) changes nothing. *)
Definition sys_step (sys : system S E) (st : step E) : system S E :=
  match st with
  | Deliver e =>
      run_task
        (mkSystem (sys_state sys) (sys_lock sys) (sys_clock sys)
           (sys_tasks sys ++ [(e, handler e)]) (sys_log sys))
        (length (sys_tasks sys)) e (handler e) []
  | Run i =>
      match sys_tasks sys !! i with
      | Some (e, p) =>
          if runnable p (sys_lock sys) then run_task sys i e p [] else sys
      | None => sys
      end
  | Reply i r =>
      match sys_tasks sys !! i with
      | Some (e, p) =>
          match resume p r with
          | Some (a, p1) => run_task sys i e p1 [(e, Completed a)]
          | None => sys
          end
      | None => sys
      end
  | Tick d =>
      if Qle_bool 0 d then
        mkSystem (sys_state sys) (sys_lock sys) (sys_clock sys + d)
          (sys_tasks sys) (sys_log sys)
      else sys
  end.

Definition sys_run (sys : system S E) (steps : list (step E)) : system S E :=
  fold_left sys_step steps sys.

(** What a step of the system adds to the log: nothing, or the completed
    actions and the issued call of one stretch of the coroutine of [e]. *)
Definition extends (sys sys' : system S E) (e : E) (c : option call)
    : Prop :=
  ∃ done ls,
    sys_log sys'
    = (sys_log sys ++ done ++ map (fun l => (e, Completed (ALog l))) ls
       ++ match c with Some c => [(e, Issued c)] | None => [] end)%list
    ∧ Forall (fun x => ∃ a, x = (e, Completed a)) done.

(** Every stretch that a coroutine of event [e] runs between two
    suspensions, from state [s0] to state [s] and up to the call [c] it then
    waits for, is one that [G] allows.  [blocks_ok p s0 s]: [p] is reached in
    state [s] within a stretch that began in state [s0]. *)
Context (G : E → S → S → option call → Prop).

Fixpoint blocks_ok (e : E) (p : prog S unit) (s0 s : S) : Prop :=
  match p with
  | Ret _ | Raise _ => G e s0 s None
  | Get k => blocks_ok e (k s) s0 s
  | Put s' k => blocks_ok e k s0 s'
  | Monotonic k => ∀ t, blocks_ok e (k t) s0 s
  | Log _ k => blocks_ok e k s0 s
  | Acquire k =>
      G e s0 s None ∧ blocks_ok e k s0 s ∧ ∀ s1, blocks_ok e k s1 s1
  | Release k => blocks_ok e k s0 s
  | HttpGet url k =>
      G e s0 s (Some (CHttpGet url)) ∧ ∀ r s1, blocks_ok e (k r) s1 s1
  | SendMessage room c k =>
      G e s0 s (Some (CSend room c)) ∧ ∀ r s1, blocks_ok e (k r) s1 s1
  | GetEvent room ev k =>
      G e s0 s (Some (CGetEvent room ev)) ∧ ∀ r s1, blocks_ok e (k r) s1 s1
  | Redact room ev rs k =>
      G e s0 s (Some (CRedact room ev rs)) ∧ ∀ r s1, blocks_ok e (k r) s1 s1
  end.

(** A coroutine as it stands in the system: whatever stretch it runs next
    is allowed. *)
Definition task_ok (e : E) (p : prog S unit) : Prop :=
  match p with
  | Ret _ | Raise _ => True
  | Acquire k => ∀ s1, blocks_ok e k s1 s1
  | HttpGet _ k => ∀ r s1, blocks_ok e (k r) s1 s1
  | SendMessage _ _ k => ∀ r s1, blocks_ok e (k r) s1 s1
  | GetEvent _ _ k => ∀ r s1, blocks_ok e (k r) s1 s1
  | Redact _ _ _ k => ∀ r s1, blocks_ok e (k r) s1 s1
  | _ => ∀ s1, blocks_ok e p s1 s1
  end.

End scheduler.

(** *** The lock discipline

    [lock_ok held p]: a coroutine that stands at [p], holding the lock or
    not as [held] says, acquires the lock only when it does not hold it,
    releases it only when it holds it, and does not end while it holds
    it. *)
Fixpoint lock_ok {S A} (held : bool) (p : prog S A) : Prop :=
  match p with
  | Ret _ | Raise _ => held = false
  | Get k => ∀ s, lock_ok held (k s)
  | Put _ k => lock_ok held k
  | Monotonic k => ∀ t, lock_ok held (k t)
  | Log _ k => lock_ok held k
  | Acquire k => held = false ∧ lock_ok true k
  | Release k => held = true ∧ lock_ok false k
  | HttpGet _ k => ∀ r, lock_ok held (k r)
  | SendMessage _ _ k => ∀ r, lock_ok held (k r)
  | GetEvent _ _ k => ∀ r, lock_ok held (k r)
  | Redact _ _ _ k => ∀ r, lock_ok held (k r)
  end.

(** The coroutines that hold the lock, counted. *)
Definition holders (hs : list bool) : nat := length (List.filter id hs).

(** [hs] tells which coroutines of the system hold the lock: each keeps to
    the discipline, a holder waits for a reply, and there is one holder
    when the lock is held and none when it is free. *)
Definition lock_inv {S E} (sys : system S E) (hs : list bool) : Prop :=
  Forall2 (fun h t => lock_ok h t.2 ∧ (h = true → is_Some (pending_call t.2)))
    hs (sys_tasks sys)
  ∧ holders hs = if sys_lock sys then 1%nat else 0%nat.

(** The result of a coroutine that went on as another one. *)
Definition after {S A B} (r1 : result S A) (r2 : result S B) : result S B :=
  mkResult (final r2) (locked r2) (trace r1 ++ trace r2) (out r2) (unused r2).

Definition with_out {S A B} (r : result S A) (o : outcome B) : result S B :=
  mkResult (final r) (locked r) (trace r) o (unused r).

End Async.

(** ** wellknown.py: the fetch *)

Module Resolver.
Import Mautrix Wellknown Async.

(** The URL of the support document of a server. *)
Definition support_url (server_name : string) : string :=
  "https://" ++ server_name ++ "/.well-known/matrix/support".

(** [fetch_support_well_known] *)
Definition fetch_support_well_known {S} (server_name : string)
    : prog S SupportWellKnown :=
  let url := support_url server_name in
  HttpGet url (fun reply =>
    match reply with
    | ConnectionError => Raise FetchFailure
    | Response status body =>
        if raise_for_status status then Raise FetchFailure
        else match body with
             | Some wk => Ret wk
             | None => Raise FetchFailure
             end
    end).

End Resolver.

(** ** bot.py *)

Module Bot.
Import Mautrix Wellknown Async Resolver.

Inductive JoinType : Type :=
| NEW_IS_LISTED_SUPPORT
| NEW_NOT_LISTED_SUPPORT
| NEW_WELL_KNOWN_MISSING
| MEMBER_IS_LISTED_SUPPORT
| MEMBER_NOT_LISTED_SUPPORT.

#[global] Instance JoinType_eq_dec : EqDecision JoinType.
Proof. solve_decision. Defined.

(** The configuration values read by the bot.  A message template is the
    function that [str.format] makes of it. *)
Record Config : Type := mkConfig {
  screening_room : string;
  space_room : string;
  application_pings : list string;
  messages_prefix : string → string;
  messages_recheck_prefix : string → string;
  messages : JoinType → string → string → string;
  messages_suffix : string
}.

(** What the bot uses of the client and of the standard library:
    [client.mxid], [client.parse_user_id], [MatrixURI.build(_).matrix_to_url]
    and [html.escape]. *)
Record Client : Type := mkClient {
  mxid : string;
  parse_user_id : string → (string * string) + exn;
  matrix_to_url : string → string;
  html_escape : string → string
}.

(** The fields of [MuninnBot]; [join_lock] is the lock of [Async]. *)
Record MuninnBot : Type := mkMuninnBot {
  space_members : gmap string Member;
  pending_applications : gmap string (option string);
  welcomed_users : gmap string (option string);
  join_limiter_count : Z;
  join_limiter_ts : Q
}.

Definition set_space_members (f : gmap string Member → gmap string Member)
    (b : MuninnBot) : MuninnBot :=
  mkMuninnBot (f (space_members b)) (pending_applications b)
    (welcomed_users b) (join_limiter_count b) (join_limiter_ts b).

Definition set_pending_applications
    (f : gmap string (option string) → gmap string (option string))
    (b : MuninnBot) : MuninnBot :=
  mkMuninnBot (space_members b) (f (pending_applications b))
    (welcomed_users b) (join_limiter_count b) (join_limiter_ts b).

Definition set_welcomed_users
    (f : gmap string (option string) → gmap string (option string))
    (b : MuninnBot) : MuninnBot :=
  mkMuninnBot (space_members b) (pending_applications b)
    (f (welcomed_users b)) (join_limiter_count b) (join_limiter_ts b).

Definition set_join_limiter_count (f : Z → Z) (b : MuninnBot) : MuninnBot :=
  mkMuninnBot (space_members b) (pending_applications b)
    (welcomed_users b) (f (join_limiter_count b)) (join_limiter_ts b).

Definition set_join_limiter_ts (t : Q) (b : MuninnBot) : MuninnBot :=
  mkMuninnBot (space_members b) (pending_applications b)
    (welcomed_users b) (join_limiter_count b) t.

(** The state that [start] leaves; [members] is the reply of
    [get_joined_members(space_room)]. *)
Definition start (members : gmap string Member) : MuninnBot :=
  mkMuninnBot members ∅ ∅ 0 0%Q.

(** [dict.setdefault(k, v)] *)
Definition setdefault {V} (k : string) (v : V) (m : gmap string V)
    : gmap string V :=
  match m !! k with
  | Some _ => m
  | None => <[k := v]> m
  end.

(** The truth value of an optional string: [None] and the empty string are
    false. *)
Definition truthy (x : option string) : bool :=
  match x with
  | Some s => negb (bool_decide (s = EmptyString))
  | None => false
  end.

Definition dquote : string := String "034"%char EmptyString.

(** U+1F44D, in UTF-8 *)
Definition thumbs_up : string :=
  String "240"%char (String "159"%char (String "145"%char
    (String "141"%char EmptyString))).

Section handlers.
Context (config : Config) (client : Client).

Definition mention (user_id inner : string) : string :=
  "<a href=" ++ dquote ++ matrix_to_url client user_id ++ dquote ++ ">"
  ++ inner ++ "</a>".

(** [_make_application_content] *)
Definition _make_application_content (user_id : string) : Content :=
  mkContent TEXT
    (mention user_id user_id
     ++ " Application received, please wait for manual review. "
     ++ "Feel free to send messages with additional details if necessary.")
    (user_id :: application_pings config) None None.

(** The content that [_check_member] builds once the join type is known. *)
Definition welcome_content (sender event_id server_name : string)
    (is_join : bool) (join_type : JoinType) : Content :=
  let user_mention := mention sender (html_escape client sender) in
  let server_name_html := html_escape client server_name in
  let prefix :=
    if is_join then messages_prefix config user_mention
    else messages_recheck_prefix config user_mention in
  let message := messages config join_type user_mention server_name_html in
  let suffix := messages_suffix config in
  mkContent NOTICE
    ("<p>" ++ prefix ++ "</p><p>" ++ message ++ "</p><p>" ++ suffix ++ "</p>")
    [sender]
    (if decide (join_type = NEW_IS_LISTED_SUPPORT) then Some sender else None)
    (Some event_id).

(** The [try] statement of [_check_member]: the join type. *)
Definition classify (sender server_name : string) : prog MuninnBot JoinType :=
  try_except
    (wk ← fetch_support_well_known server_name;
     if has_contact wk sender then Ret NEW_IS_LISTED_SUPPORT
     else Ret NEW_NOT_LISTED_SUPPORT)
    (fun _ => log (LogFetchFailed server_name);; Ret NEW_WELL_KNOWN_MISSING).

(** [_check_member]; [sender], [room_id] and [event_id] are those of the
    join event or of the command. *)
Definition _check_member (sender room_id event_id : string) (is_join : bool)
    : prog MuninnBot unit :=
  '(_, server_name) ← await (parse_user_id client sender);
  join_type ← classify sender server_name;
  let content := welcome_content sender event_id server_name is_join join_type in
  evt_id ← SendMessage room_id content await;
  modify (set_welcomed_users (setdefault sender (Some evt_id)));;
  if decide (join_type = NEW_IS_LISTED_SUPPORT)
  then modify (set_pending_applications <[evt_id := Some sender]>)
  else Ret tt.

(** [handle_member] *)
Definition handle_member (evt : StateEvent) : prog MuninnBot unit :=
  if negb (se_timeline evt) then Ret tt
  else if decide (se_room_id evt = screening_room config) then
    self ← get;
    if bool_decide (se_sender evt ∈ dom (space_members self))
       || bool_decide (se_sender evt = mxid client)
       || bool_decide (se_sender evt ∈ dom (welcomed_users self))
    then Ret tt
    else
      with_lock (
        let screen :=
          _check_member (se_sender evt) (se_room_id evt) (se_event_id evt) true;;
          modify (set_join_limiter_count (fun c => c + 1));;
          now ← monotonic;
          modify (set_join_limiter_ts now) in
        self ← get;
        now ← monotonic;
        if Qlt_le_dec (join_limiter_ts self + 60) now then
          modify (set_join_limiter_count (fun _ => 0));;
          screen
        else if 5 <? join_limiter_count self then
          log LogRateLimited
        else screen)
  else if decide (se_room_id evt = space_room config) then
    if decide (se_membership evt = JOIN) then
      modify (set_space_members
        <[se_sender evt :=
            mkMember (se_membership evt) (se_avatar_url evt)
                     (se_displayname evt)]>)
    else if bool_decide (se_membership evt = LEAVE)
            || bool_decide (se_membership evt = BAN) then
      modify (set_space_members (delete (se_sender evt)))
    else Ret tt
  else Ret tt.

(** [handle_leave] *)
Definition handle_leave (evt : StateEvent) : prog MuninnBot unit :=
  if decide (se_room_id evt = screening_room config) then
    claimed ← with_lock (
      self ← get;
      match welcomed_users self !! se_sender evt with
      | None => Ret None
      | Some evt_id =>
          modify (set_welcomed_users <[se_sender evt := None]>);;
          Ret (Some evt_id)
      end);
    match claimed with
    | None => Ret tt
    | Some evt_id =>
        if truthy evt_id then
          Redact (se_room_id evt) (default EmptyString evt_id) "User left"
                 await
        else Ret tt
    end
  else Ret tt.

(** [recheck_member] *)
Definition recheck_member (evt : MessageEvent) : prog MuninnBot unit :=
  _check_member (msg_sender evt) (msg_room_id evt) (msg_event_id evt) false.

(** [manual_application]; [evt.reply] sends to the room of the command, as
    a reply to it. *)
Definition manual_application (evt : MessageEvent) : prog MuninnBot unit :=
  let content := _make_application_content (msg_sender evt) in
  SendMessage (msg_room_id evt)
    (mkContent (c_msgtype content) (c_html content) (c_mentions content)
               (c_verified content) (Some (msg_event_id evt)))
    (fun r => _ ← await r; Ret tt).

(** [automatic_application].  On a cache miss the name [evt] is bound anew
    to the fetched event: [evt_room_id] and [evt_sender] are [evt.room_id]
    and [evt.sender] as the last statement reads them. *)
Definition automatic_application (evt : ReactionEvent)
    : prog MuninnBot unit :=
  if bool_decide (re_sender evt = mxid client)
     || bool_decide (re_rel_type evt ≠ ANNOTATION)
     || negb (String.prefix thumbs_up (re_key evt))
  then Ret tt
  else
    let reaction_target := re_target evt in
    self ← get;
    resolved ←
      match pending_applications self !! reaction_target with
      | Some user_id => Ret (Some (user_id, re_room_id evt, re_sender evt))
      | None =>
          fetched ← GetEvent (re_room_id evt) reaction_target Ret;
          match fetched with
          | inl evt' =>
              let user_id :=
                if decide (ev_sender evt' = mxid client)
                then ev_verified evt' else None in
              modify (set_pending_applications
                        <[reaction_target := user_id]>);;
              Ret (Some (user_id, ev_room_id evt', ev_sender evt'))
          | inr _ =>
              log (LogGetEventFailed reaction_target);;
              modify (set_pending_applications <[reaction_target := None]>);;
              Ret None
          end
      end;
    match resolved with
    | None => Ret tt
    | Some (user_id, evt_room_id, evt_sender) =>
        if decide (user_id = Some evt_sender) then
          _ ← SendMessage evt_room_id (_make_application_content evt_sender)
                await;
          modify (set_pending_applications <[reaction_target := None]>)
        else Ret tt
    end.

(** The document that [fetch_support_well_known] returns for a reply, or
    [None] when it raises. *)
Definition fetched (reply : HttpReply) : option SupportWellKnown :=
  match reply with
  | ConnectionError => None
  | Response status body => if raise_for_status status then None else body
  end.

(** The join type for a reply of the server of [sender]. *)
Definition join_type_for (sender : string) (reply : HttpReply) : JoinType :=
  match fetched reply with
  | Some wk =>
      if has_contact wk sender then NEW_IS_LISTED_SUPPORT
      else NEW_NOT_LISTED_SUPPORT
  | None => NEW_WELL_KNOWN_MISSING
  end.

(** What [_check_member] records once the message is sent. *)
Definition record_welcome (sender evt_id : string) (join_type : JoinType)
    (b : MuninnBot) : MuninnBot :=
  let b' := set_welcomed_users (setdefault sender (Some evt_id)) b in
  if decide (join_type = NEW_IS_LISTED_SUPPORT)
  then set_pending_applications <[evt_id := Some sender]> b'
  else b'.

(** What [_check_member] does up to the reply to its message: the fetch,
    the log entry when the fetch failed, the send. *)
Definition check_member_trace (sender room_id event_id server_name : string)
    (is_join : bool) (reply : HttpReply) (sent : string + exn)
    : list action :=
  AHttpGet (support_url server_name) reply
  :: match fetched reply with
     | Some _ => []
     | None => [ALog (LogFetchFailed server_name)]
     end
  ++ [ASend room_id
        (welcome_content sender event_id server_name is_join
           (join_type_for sender reply)) sent].

(** The skip test of [handle_member] in the screening room. *)
Definition skipped (self : MuninnBot) (sender : string) : bool :=
  bool_decide (sender ∈ dom (space_members self))
  || bool_decide (sender = mxid client)
  || bool_decide (sender ∈ dom (welcomed_users self)).

(** The rate limiter lets a join at clock reading [now] through. *)
Definition limiter_admits (self : MuninnBot) (now : Q) : bool :=
  if Qlt_le_dec (join_limiter_ts self + 60) now then true
  else negb (5 <? join_limiter_count self).

(** The reset of the counter by a join at clock reading [now]. *)
Definition limiter_reset (self : MuninnBot) (now : Q) : MuninnBot :=
  if Qlt_le_dec (join_limiter_ts self + 60) now
  then set_join_limiter_count (fun _ => 0) self
  else self.

(** What a screening leaves: the welcome recorded, one more on the counter,
    the clock reading [now'] taken at the end as the timestamp. *)
Definition screened (sender evt_id : string) (join_type : JoinType)
    (now' : Q) (self : MuninnBot) : MuninnBot :=
  set_join_limiter_ts now'
    (set_join_limiter_count (fun c => c + 1)
       (record_welcome sender evt_id join_type self)).

(** A join event as it is processed when the send succeeds: the clock
    reading [a_now] of the rate limiter, the reply [a_reply] of the fetch,
    the event id [a_evt_id] of the message sent and the clock reading
    [a_done] taken at the end. *)
Record arrival : Type := mkArrival {
  a_evt : StateEvent;
  a_now : Q;
  a_reply : HttpReply;
  a_evt_id : string;
  a_done : Q
}.

Definition a_sender (a : arrival) : string := se_sender (a_evt a).

Definition arrival_inputs (a : arrival) : list input :=
  [InClock (a_now a); InHttp (a_reply a); InSend (inl (a_evt_id a));
   InClock (a_done a)].

(** The handler of the join runs alone, with the lock free. *)
Definition deliver (a : arrival) (self : MuninnBot) : result MuninnBot unit :=
  exec (handle_member (a_evt a)) (arrival_inputs a) self false.

(** Joins processed one after the other: their results, in order. *)
Fixpoint deliver_all (l : list arrival) (self : MuninnBot)
    : list (result MuninnBot unit) :=
  match l with
  | [] => []
  | a :: l' => deliver a self :: deliver_all l' (final (deliver a self))
  end.

(** The state after the joins. *)
Definition after_all (l : list arrival) (self : MuninnBot) : MuninnBot :=
  fold_left (fun s a => final (deliver a s)) l self.

(** A join from the timeline of the screening room by a user who is no
    space member, not the bot and not welcomed yet, and whose id the client
    parses. *)
Definition new_joiner (self : MuninnBot) (a : arrival) : Prop :=
  se_timeline (a_evt a) = true
  ∧ se_room_id (a_evt a) = screening_room config
  ∧ (a_sender a ∉ dom (space_members self))
  ∧ a_sender a ≠ mxid client
  ∧ (a_sender a ∉ dom (welcomed_users self))
  ∧ ∃ localpart server,
      parse_user_id client (a_sender a) = inl (localpart, server).

Definition server_of (user_id : string) : string :=
  match parse_user_id client user_id with
  | inl (_, server) => server
  | inr _ => EmptyString
  end.

(** The screening action of a join: the fetch, the log entry when it failed,
    and the message sent as a reply to the join event. *)
Definition screening_trace (a : arrival) : list action :=
  check_member_trace (a_sender a) (se_room_id (a_evt a))
    (se_event_id (a_evt a)) (server_of (a_sender a)) true (a_reply a)
    (inl (a_evt_id a)).

(** Clock readings in the order in which they were taken. *)
Fixpoint ascending (l : list Q) : Prop :=
  match l with
  | x :: (y :: _) as rest => (x <= y)%Q ∧ ascending rest
  | _ => True
  end.

(** The events that the bot handles; [OnLeave] stands for LEAVE and for
    BAN, which share a handler. *)
Inductive incoming : Type :=
| OnJoin (evt : StateEvent)
| OnLeave (evt : StateEvent)
| OnRecheck (evt : MessageEvent)
| OnApply (evt : MessageEvent)
| OnReaction (evt : ReactionEvent).

Definition handler (e : incoming) : prog MuninnBot unit :=
  match e with
  | OnJoin evt => handle_member evt
  | OnLeave evt => handle_leave evt
  | OnRecheck evt => recheck_member evt
  | OnApply evt => manual_application evt
  | OnReaction evt => automatic_application evt
  end.

End handlers.

(** [evt.sender] *)
Definition sender_of (e : incoming) : string :=
  match e with
  | OnJoin evt | OnLeave evt => se_sender evt
  | OnRecheck evt | OnApply evt => msg_sender evt
  | OnReaction evt => re_sender evt
  end.

(** The welcome messages that the join handler got sent for [user_id]: the
    sends of a notice that mentions [user_id], by a coroutine of a join
    event, that returned an event id. *)
Definition is_join_welcome (user_id : string) (entry : incoming * item)
    : bool :=
  match entry with
  | (OnJoin evt, Completed (ASend _ content (inl _))) =>
      bool_decide (se_sender evt = user_id)
      && bool_decide (c_msgtype content = NOTICE)
  | _ => false
  end.

Definition join_welcomes (user_id : string) (log : list (incoming * item))
    : nat :=
  length (List.filter (is_join_welcome user_id) log).

(** The redactions issued on leave or ban events of [user_id]. *)
Definition is_redaction_for (user_id : string) (entry : incoming * item)
    : bool :=
  match entry with
  | (e, Issued (CRedact _ _ _)) => bool_decide (sender_of e = user_id)
  | _ => false
  end.

Definition redactions_for (user_id : string) (log : list (incoming * item))
    : nat :=
  length (List.filter (is_redaction_for user_id) log).

(** What a stretch of a coroutine may do to [welcomed_users], and when it
    may end in a redaction: an entry that is [None] stays [None]; a
    redaction is issued for the sender of the event, by a stretch that found
    the sender's entry holding an id and left it [None]. *)
Definition leave_guarantee (e : incoming) (s0 s : MuninnBot)
    (c : option call) : Prop :=
  (∀ v, welcomed_users s0 !! v = Some None → welcomed_users s !! v = Some None)
  ∧ ∀ room x rs, c = Some (CRedact room x rs) →
      rs = "User left"
      ∧ welcomed_users s0 !! sender_of e = Some (Some x)
      ∧ x ≠ EmptyString
      ∧ welcomed_users s !! sender_of e = Some None.

(** What a stretch of a coroutine may do to an entry of [welcomed_users]:
    leave it as it is, or, in a coroutine of a leave or ban event of that
    user in the screening room, set it to none. *)
Definition welcome_guarantee (config : Config) (e : incoming)
    (s0 s : MuninnBot) (c : option call) : Prop :=
  ∀ u v, welcomed_users s0 !! u = Some v →
    welcomed_users s !! u = Some v
    ∨ (welcomed_users s !! u = Some None
       ∧ ∃ evt, e = OnLeave evt ∧ se_sender evt = u
           ∧ se_room_id evt = screening_room config).

End Bot.

(** ** Sample data: a configuration, a client and events *)

Module Sample.
Import Mautrix Wellknown Async Bot.

Fixpoint split_colon (s : string) : option (string * string) :=
  match s with
  | EmptyString => None
  | String c t =>
      if (c =? ":")%char then Some (EmptyString, t)
      else match split_colon t with
           | Some (a, b) => Some (String c a, b)
           | None => None
           end
  end.

(** The client's [parse_user_id]: the id starts with an at sign, and the
    first colon separates the local part from a server name that is not
    empty. *)
Definition parse_user_id (user_id : string) : (string * string) + exn :=
  match user_id with
  | String "@" rest =>
      match split_colon rest with
      | Some (localpart, EmptyString) => inr ValueError
      | Some (localpart, server) => inl (localpart, server)
      | None => inr ValueError
      end
  | _ => inr ValueError
  end.

Definition config : Config :=
  mkConfig "!screening:hall" "!space:hall" ["@reviewer:hall"]
    (fun user => "Welcome " ++ user)
    (fun user => "Rechecked " ++ user)
    (fun join_type user server =>
       match join_type with
       | NEW_IS_LISTED_SUPPORT => user ++ " is a contact of " ++ server
       | NEW_NOT_LISTED_SUPPORT => user ++ " is no contact of " ++ server
       | NEW_WELL_KNOWN_MISSING => server ++ " has no support file"
       | MEMBER_IS_LISTED_SUPPORT => "member, listed"
       | MEMBER_NOT_LISTED_SUPPORT => "member, not listed"
       end)
    "Goodbye".

Definition client : Client :=
  mkClient "@bot:hall" parse_user_id
    (fun user_id => "https://matrix.to/#/" ++ user_id)
    (fun text => text).

Definition join (user_id event_id : string) : StateEvent :=
  mkStateEvent true "!screening:hall" user_id event_id JOIN None None.

Definition leave (user_id event_id : string) : StateEvent :=
  mkStateEvent true "!screening:hall" user_id event_id LEAVE None None.

Definition thumb (user_id target : string) : ReactionEvent :=
  mkReactionEvent "!screening:hall" user_id ANNOTATION thumbs_up target.


End Sample.

(** * Properties

    ** The name index *)

#[local] Set Warnings "-clear-no-such-hyp".

Module NamemonitorFacts.
Import Mautrix Namemonitor.

Lemma same_frame_refl nm : same_frame nm nm.
Proof. by repeat split. Qed.

Lemma same_frame_trans nm1 nm2 nm3 :
  same_frame nm1 nm2 → same_frame nm2 nm3 → same_frame nm1 nm3.
Proof.
  intros (?&?&?&?) (?&?&?&?). repeat split; congruence.
Qed.

Lemma remove_from_server_ok server user_id nm :
  no_empty_server nm →
  user_id ∈ mxids_of nm server →
  ∃ nm', _remove_member_from_server server user_id nm = (inl tt, nm')
    ∧ same_frame nm nm' ∧ no_empty_server nm'
    ∧ ∀ s, mxids_of nm' s =
        if decide (s = server) then mxids_of nm s ∖ {[user_id]}
        else mxids_of nm s.
Proof.
  intros Hne Hin. unfold mxids_of in Hin.
  unfold _remove_member_from_server, mbind, M_bind, bind, gets, modify, ret.
  destruct (server_to_mxids nm !! server) as [mxids|] eqn:Hs; simpl in *;
    [|set_solver].
  destruct (decide (mxids = ∅)) as [->|_]; [set_solver|].
  destruct (decide (user_id ∈ mxids)) as [_|]; [|done].
  destruct (decide (mxids ∖ {[user_id]} = ∅)) as [He|He]; simpl.
  - eexists; split; [done|]. split; [by repeat split|]. split.
    + intros s X. simpl. rewrite delete_insert_eq.
      destruct (decide (s = server)) as [->|?].
      * by rewrite lookup_delete_eq.
      * rewrite lookup_delete_ne by done. apply Hne.
    + intros s. unfold mxids_of. simpl. rewrite delete_insert_eq.
      destruct (decide (s = server)) as [->|?].
      * rewrite lookup_delete_eq, Hs. simpl. by rewrite He.
      * by rewrite lookup_delete_ne.
  - eexists; split; [done|]. split; [by repeat split|]. split.
    + intros s X. simpl.
      destruct (decide (s = server)) as [->|?].
      * rewrite lookup_insert_eq. by intros [= <-].
      * rewrite lookup_insert_ne by done. apply Hne.
    + intros s. unfold mxids_of. simpl.
      destruct (decide (s = server)) as [->|?].
      * by rewrite lookup_insert_eq, Hs.
      * by rewrite lookup_insert_ne.
Qed.


Lemma add_to_server_ok server user_id nm :
  no_empty_server nm →
  ∃ nm', _add_member_to_server server user_id nm = (inl tt, nm')
    ∧ same_frame nm nm' ∧ no_empty_server nm'
    ∧ ∀ s, mxids_of nm' s =
        if decide (s = server) then mxids_of nm s ∪ {[user_id]}
        else mxids_of nm s.
Proof.
  intros Hne. eexists; split; [reflexivity|].
  split; [by repeat split|]. split.
  - intros s X. simpl. destruct (decide (s = server)) as [->|?].
    + rewrite lookup_insert_eq. intros [= <-]. set_solver.
    + rewrite lookup_insert_ne by done. apply Hne.
  - intros s. unfold mxids_of. simpl.
    destruct (decide (s = server)) as [->|?].
    + by rewrite lookup_insert_eq.
    + by rewrite lookup_insert_ne.
Qed.

(** The loop of removals: every server of the list loses the member. *)
Lemma remove_loop_ok user_id servers : ∀ nm,
  NoDup servers →
  no_empty_server nm →
  (∀ s, s ∈ servers → user_id ∈ mxids_of nm s) →
  ∃ nm',
    for_each servers (fun s => _remove_member_from_server s user_id) nm
      = (inl tt, nm')
    ∧ same_frame nm nm' ∧ no_empty_server nm'
    ∧ ∀ s, mxids_of nm' s =
        if decide (s ∈ servers) then mxids_of nm s ∖ {[user_id]}
        else mxids_of nm s.
Proof.
  induction servers as [|s0 rest IH]; intros nm Hnd Hne Hin.
  - exists nm. split; [done|]. split; [apply same_frame_refl|].
    split; [done|]. intros s. destruct (decide (s ∈ [])); [set_solver|done].
  - apply NoDup_cons in Hnd as [Hs0 Hnd].
    destruct (remove_from_server_ok s0 user_id nm Hne) as (nm1&E1&F1&N1&P1).
    { apply Hin. set_solver. }
    destruct (IH nm1 Hnd N1) as (nm2&E2&F2&N2&P2).
    { intros s Hs. rewrite P1. destruct (decide (s = s0)) as [->|?]; [done|].
      apply Hin. set_solver. }
    exists nm2. split.
    { simpl. unfold mbind, M_bind, bind. by rewrite E1. }
    split; [by eapply same_frame_trans|]. split; [done|].
    intros s. rewrite P2, P1.
    destruct (decide (s = s0)) as [->|?].
    + destruct (decide (s0 ∈ rest)); [done|].
      destruct (decide (s0 ∈ s0 :: rest)); [done|set_solver].
    + destruct (decide (s ∈ rest)), (decide (s ∈ s0 :: rest)); set_solver.
Qed.

(** The loop of additions: every server of the list gains the member. *)
Lemma add_loop_ok user_id servers : ∀ nm,
  no_empty_server nm →
  ∃ nm',
    for_each servers (fun s => _add_member_to_server s user_id) nm
      = (inl tt, nm')
    ∧ same_frame nm nm' ∧ no_empty_server nm'
    ∧ ∀ s, mxids_of nm' s =
        if decide (s ∈ servers) then mxids_of nm s ∪ {[user_id]}
        else mxids_of nm s.
Proof.
  induction servers as [|s0 rest IH]; intros nm Hne.
  - exists nm. split; [done|]. split; [apply same_frame_refl|].
    split; [done|]. intros s. destruct (decide (s ∈ [])); [set_solver|done].
  - destruct (add_to_server_ok s0 user_id nm Hne) as (nm1&E1&F1&N1&P1).
    destruct (IH nm1 N1) as (nm2&E2&F2&N2&P2).
    exists nm2. split.
    { simpl. unfold mbind, M_bind, bind. by rewrite E1. }
    split; [by eapply same_frame_trans|]. split; [done|].
    intros s. rewrite P2, P1.
    destruct (decide (s = s0)) as [->|?].
    + destruct (decide (s0 ∈ rest)), (decide (s0 ∈ s0 :: rest)); set_solver.
    + destruct (decide (s ∈ rest)), (decide (s ∈ s0 :: rest)); set_solver.
Qed.

Lemma update_member_ok user_id new_servers nm :
  index_inv nm →
  ∃ nm', _update_member user_id new_servers nm = (inl tt, nm')
    ∧ index_inv nm'
    ∧ tlds nm' = tlds nm ∧ member_names nm' = member_names nm
    ∧ excluded_members nm' = excluded_members nm
    ∧ mxid_to_servers nm' = <[user_id := new_servers]> (mxid_to_servers nm).
Proof.
  intros [Hbi Hne].
  unfold _update_member, mbind, M_bind, bind, gets, modify. cbv beta iota.
  set (old := default ∅ (mxid_to_servers nm !! user_id)).
  set (nm1 := set_mxid_to_servers <[user_id:=new_servers]> nm).
  assert (same_frame_but : tlds nm1 = tlds nm ∧ member_names nm1 = member_names nm
     ∧ excluded_members nm1 = excluded_members nm
     ∧ server_to_mxids nm1 = server_to_mxids nm
     ∧ mxid_to_servers nm1 = <[user_id := new_servers]> (mxid_to_servers nm))
    by done.
  destruct same_frame_but as (T1&M1&Ex1&S1&X1).
  assert (Hm1 : ∀ s, mxids_of nm1 s = mxids_of nm s) by done.
  assert (Hne1 : no_empty_server nm1) by done.
  clearbody nm1.
  destruct (decide (new_servers = old)) as [->|Hneq].
  - exists nm1. split; [done|]. split; [|done]. split; [|done].
    intros s u. rewrite Hm1. unfold servers_of. rewrite X1.
    destruct (decide (u = user_id)) as [->|?].
    + rewrite lookup_insert_eq. apply Hbi.
    + rewrite lookup_insert_ne by done. apply Hbi.
  - destruct (remove_loop_ok user_id (elements (old ∖ new_servers)) nm1)
      as (nm2&E2&F2&N2&P2); [apply NoDup_elements|done| |].
    { intros s Hs%elem_of_elements. rewrite Hm1.
      apply Hbi. unfold servers_of. fold old. set_solver. }
    destruct (add_loop_ok user_id (elements (new_servers ∖ old)) nm2 N2)
      as (nm3&E3&F3&N3&P3).
    exists nm3. rewrite E2. split; [done|].
    destruct F2 as (T2&M2&X2&Ex2), F3 as (T3&M3&X3&Ex3).
    split; [|repeat split; congruence].
    split; [|done].
    intros s u. rewrite P3, P2, Hm1.
    unfold servers_of. rewrite X3, X2, X1.
    specialize (Hbi s). unfold servers_of in Hbi.
    destruct (decide (u = user_id)) as [->|Hu].
    + rewrite lookup_insert_eq. simpl.
      specialize (Hbi user_id). fold old in Hbi.
      generalize dependent (mxids_of nm s). intros A HA.
      clear -HA Hneq. 
      destruct (decide (s ∈ elements (new_servers ∖ old))) as [H1|H1];
      destruct (decide (s ∈ elements (old ∖ new_servers))) as [H2|H2];
      rewrite elem_of_elements in H1; rewrite elem_of_elements in H2;
      clear Hneq; destruct (decide (s ∈ new_servers)), (decide (s ∈ old));
      set_unfold; naive_solver.
    + rewrite lookup_insert_ne by done. rewrite <-Hbi.
      generalize (mxids_of nm s). intros A. clear -Hu.
      destruct (decide (s ∈ elements (new_servers ∖ old)));
      destruct (decide (s ∈ elements (old ∖ new_servers)));
      set_unfold; naive_solver.
Qed.

Lemma remove_member_ok user_id nm :
  index_inv nm →
  ∃ nm', _remove_member user_id nm = (inl tt, nm')
    ∧ index_inv nm'
    ∧ tlds nm' = tlds nm ∧ member_names nm' = member_names nm
    ∧ excluded_members nm' = excluded_members nm
    ∧ mxid_to_servers nm' = delete user_id (mxid_to_servers nm)
    ∧ ∀ s, user_id ∉ mxids_of nm' s.
Proof.
  intros [Hbi Hne].
  unfold _remove_member, mbind, M_bind, bind, gets, modify. cbv beta iota.
  set (old := default ∅ (mxid_to_servers nm !! user_id)).
  set (nm1 := set_mxid_to_servers (delete user_id) nm).
  assert (tlds nm1 = tlds nm ∧ member_names nm1 = member_names nm
     ∧ excluded_members nm1 = excluded_members nm
     ∧ mxid_to_servers nm1 = delete user_id (mxid_to_servers nm))
    as (T1&M1&Ex1&X1) by done.
  assert (Hm1 : ∀ s, mxids_of nm1 s = mxids_of nm s) by done.
  assert (Hne1 : no_empty_server nm1) by done.
  clearbody nm1.
  destruct (remove_loop_ok user_id (elements old) nm1)
    as (nm2&E2&F2&N2&P2); [apply NoDup_elements|done| |].
  { intros s Hs%elem_of_elements. rewrite Hm1. by apply Hbi. }
  exists nm2. split; [done|].
  destruct F2 as (T2&M2&X2&Ex2).
  assert (∀ s, user_id ∉ mxids_of nm2 s) as Hgone.
  { intros s. rewrite P2, Hm1.
    destruct (decide (s ∈ elements old)) as [Hs|Hs]; [set_solver|].
    rewrite elem_of_elements in Hs. intros Hin. by apply Hs, Hbi. }
  split; [|repeat split; congruence]. split; [|done].
  intros s u. unfold servers_of. rewrite X2, X1.
  destruct (decide (u = user_id)) as [->|Hu].
  - rewrite lookup_delete_eq. simpl. specialize (Hgone s). set_solver.
  - rewrite lookup_delete_ne by done. rewrite P2, Hm1.
    specialize (Hbi s u). unfold servers_of in Hbi. rewrite <-Hbi.
    generalize (mxids_of nm s). intros A.
    destruct (decide (s ∈ elements old)); set_unfold; naive_solver.
Qed.


(** [parse_name] returns. *)

Lemma lower_char_dot c : (lower_char c =? ".")%char = (c =? ".")%char.
Proof. by destruct c as [[] [] [] [] [] [] [] []]. Qed.

Lemma contains_dot_lower w : contains_dot (lower w) = contains_dot w.
Proof.
  induction w as [|c t IH]; [done|]. simpl. by rewrite lower_char_dot, IH.
Qed.

Lemma split_last_dot_is_Some w :
  contains_dot w = true → is_Some (split_last_dot w).
Proof.
  induction w as [|c t IH]; [done|]. simpl. intros H.
  destruct (split_last_dot t) as [[d tld]|]; [by eexists|].
  destruct (c =? ".")%char; [by eexists|]. simpl in H.
  destruct (IH H) as [? [=]].
Qed.

Lemma parse_words_returns tl words : ∀ output,
  ∃ output', parse_words tl words output = inl output'.
Proof.
  induction words as [|word rest IH]; intros output; [by eexists|].
  simpl. destruct (contains_dot word) eqn:Hd; simpl; [|apply IH].
  unfold rsplit1.
  destruct (split_last_dot_is_Some (lower word)) as [[d tld] ->].
  { by rewrite contains_dot_lower. }
  destruct (_ || _); apply IH.
Qed.

Lemma parse_chunks_returns tl chunks : ∀ output,
  ∃ output', parse_chunks tl chunks output = inl output'.
Proof.
  induction chunks as [|chunk rest IH]; intros output; [by eexists|].
  simpl. destruct (parse_words_returns tl (separator_split chunk) output)
    as [o ->]. apply IH.
Qed.

Lemma parse_name_returns tl name : ∃ output, parse_name tl name = inl output.
Proof. apply parse_chunks_returns. Qed.

(** The handlers keep the invariants of the index. *)

Lemma index_member_ok (user_id : string) displayname nm :
  user_id ∉ excluded_members nm →
  index_inv nm → names_cover nm →
  ∃ nm' servers,
    (modify (set_member_names <[user_id := str_or displayname user_id]>);;
     tl ← gets tlds;
     new_servers ← lift_pure (parse_name tl displayname);
     _update_member user_id new_servers) nm = (inl tt, nm')
    ∧ index_inv nm' ∧ names_cover nm'
    ∧ excluded_members nm' = excluded_members nm
    ∧ tlds nm' = tlds nm
    ∧ member_names nm' = <[user_id := str_or displayname user_id]> (member_names nm)
    ∧ mxid_to_servers nm' = <[user_id := servers]> (mxid_to_servers nm).
Proof.
  intros Hex Hinv Hcov.
  unfold mbind, M_bind, bind, gets, modify. cbv beta iota.
  set (nm1 := set_member_names _ nm).
  assert (index_inv nm1) as Hinv1 by done.
  assert (tlds nm1 = tlds nm ∧ excluded_members nm1 = excluded_members nm
          ∧ mxid_to_servers nm1 = mxid_to_servers nm
          ∧ member_names nm1 =
              <[user_id := str_or displayname user_id]> (member_names nm))
    as (T1&E1&X1&M1) by done.
  clearbody nm1.
  destruct (parse_name_returns (tlds nm1) displayname) as [servers ->].
  simpl.
  destruct (update_member_ok user_id servers nm1 Hinv1)
    as (nm2&E2&I2&T2&M2&Ex2&X2).
  exists nm2, servers. rewrite E2.
  split; [done|]. split; [done|]. split.
  { unfold names_cover in *. rewrite X2, M2, M1, X1, !dom_insert_L.
    set_solver. }
  repeat split; congruence.
Qed.

Lemma handle_member_ok main_room evt nm :
  index_inv nm → names_cover nm →
  ∃ nm', handle_member main_room evt nm = (inl tt, nm')
    ∧ index_inv nm' ∧ names_cover nm'
    ∧ dom (member_names nm) ⊆ dom (member_names nm').
Proof.
  intros Hinv Hcov. unfold handle_member.
  destruct (decide (me_room_id evt ≠ main_room)); [by exists nm|].
  unfold mbind, M_bind, bind at 1, gets at 1. cbv beta iota.
  destruct (decide (me_state_key evt ∈ excluded_members nm)) as [|Hex];
    [by exists nm|].
  destruct (decide (me_membership evt ≠ JOIN)).
  - destruct (remove_member_ok (me_state_key evt) nm Hinv)
      as (nm'&E&I&T&M&Ex&X&_).
    exists nm'. repeat split; try done; try apply I.
    + unfold names_cover in *. rewrite X, M, dom_delete_L. set_solver.
    + by rewrite M.
  - destruct (index_member_ok (me_state_key evt) (me_displayname evt) nm
                Hex Hinv Hcov) as (nm'&servers&E&I&C&Ex&T&M&X).
    exists nm'. unfold mbind, M_bind in E. rewrite E.
    repeat split; try done; try apply I.
    rewrite M, dom_insert_L. set_solver.
Qed.

Lemma bind_returns {A B} (m : M A) (k : A → M B) nm a nm' :
  m nm = (inl a, nm') → (m ≫= k) nm = k a nm'.
Proof. intros E. unfold mbind, M_bind, bind. by rewrite E. Qed.

Lemma load_member_ok item nm :
  index_inv nm → names_cover nm →
  ∃ nm', load_member item nm = (inl tt, nm')
    ∧ index_inv nm' ∧ names_cover nm'
    ∧ dom (member_names nm) ⊆ dom (member_names nm').
Proof.
  intros Hinv Hcov. destruct item as [user_id displayname].
  unfold load_member.
  rewrite (bind_returns _ _ nm (excluded_members nm) nm) by done.
  destruct (decide (user_id ∈ excluded_members nm)) as [|Hex];
    [by exists nm|].
  destruct (index_member_ok user_id displayname nm Hex Hinv Hcov)
    as (nm1&servers&E1&I1&C1&Ex1&T1&M1&X1).
  exists nm1. split; [exact E1|]. repeat split; try done; try apply I1.
  rewrite M1, dom_insert_L. set_solver.
Qed.

Lemma load_members_ok members : ∀ nm,
  index_inv nm → names_cover nm →
  ∃ nm', load_members members nm = (inl tt, nm')
    ∧ index_inv nm' ∧ names_cover nm'
    ∧ dom (member_names nm) ⊆ dom (member_names nm').
Proof.
  unfold load_members.
  induction members as [|item rest IH]; intros nm Hinv Hcov.
  - by exists nm.
  - destruct (load_member_ok item nm Hinv Hcov) as (nm1&E1&I1&C1&D1).
    destruct (IH nm1 I1 C1) as (nm'&E&?&?&Hd). exists nm'.
    split.
    { change (for_each (item :: rest) load_member)
        with (load_member item ≫= fun _ => for_each rest load_member).
      by rewrite (bind_returns (load_member item)
                    (fun _ => for_each rest load_member) nm tt nm1 E1). }
    split; [done|]. split; [done|].
    by transitivity (dom (member_names nm1)).
Qed.

Lemma apply_op_ok main_room o nm :
  index_inv nm → names_cover nm →
  ∃ nm', apply_op main_room o nm = (inl tt, nm')
    ∧ index_inv nm' ∧ names_cover nm'
    ∧ dom (member_names nm) ⊆ dom (member_names nm').
Proof.
  intros Hinv Hcov. destruct o as [evt|members|excluded]; simpl.
  - by apply handle_member_ok.
  - by apply load_members_ok.
  - exists (set_excluded_members (list_to_set excluded) nm).
    split; [reflexivity|]. split; [exact Hinv|]. split; [exact Hcov|].
    reflexivity.
Qed.

Lemma run_ops_ok main_room ops : ∀ nm,
  index_inv nm → names_cover nm →
  index_inv (run_ops main_room nm ops)
  ∧ names_cover (run_ops main_room nm ops)
  ∧ all_return main_room nm ops
  ∧ dom (member_names nm) ⊆ dom (member_names (run_ops main_room nm ops)).
Proof.
  induction ops as [|o rest IH]; intros nm Hinv Hcov; [done|].
  destruct (apply_op_ok main_room o nm Hinv Hcov) as (nm'&E&I&C&D).
  simpl. rewrite E. simpl.
  destruct (IH nm' I C) as (?&?&?&?).
  split; [done|]. split; [done|]. split; [done|].
  by transitivity (dom (member_names nm')).
Qed.


(** C2: after every sequence of name-index operations (member events of any
    membership, snapshot loads, configuration reads) run from empty server
    maps, no operation has raised, a user is in [server_to_mxids[s]] exactly
    when [s] is in [mxid_to_servers[u]], and no key of [server_to_mxids]
    holds an empty set. *)
Theorem index_bidirectional_after_ops main_room tl names excluded ops :
  let nm0 := mkNameMonitor tl names ∅ ∅ excluded in
  let nm := run_ops main_room nm0 ops in
  all_return main_room nm0 ops
  ∧ (∀ s u, u ∈ mxids_of nm s ↔ s ∈ servers_of nm u)
  ∧ (∀ s mxids, server_to_mxids nm !! s = Some mxids → mxids ≠ ∅).
Proof.
  intros nm0 nm.
  destruct (run_ops_ok main_room ops nm0) as ([Hbi Hne]&_&Hret&_).
  - split; [intros s u|intros s X]; unfold mxids_of, servers_of; simpl.
    + by rewrite !lookup_empty.
    + by rewrite lookup_empty.
  - unfold names_cover. simpl. rewrite dom_empty_L. apply empty_subseteq.
  - done.
Qed.

Lemma names_of_returns nm user_ids :
  (∀ u, u ∈ user_ids → u ∈ dom (member_names nm)) →
  ∃ names, names_of nm user_ids = inl names.
Proof.
  induction user_ids as [|u rest IH]; intros Hin; [by eexists|].
  simpl. destruct (member_names nm !! u) as [n|] eqn:Hu.
  - destruct IH as [names ->]; [|by eexists].
    intros v Hv. apply Hin. by right.
  - exfalso. specialize (Hin u). rewrite elem_of_dom, Hu in Hin.
    destruct Hin as [? [=]]. by left.
Qed.

Lemma keeps_name_step main_room u o nm :
  index_inv nm → names_cover nm → keeps_name u o →
  member_names (apply_op main_room o nm).2 !! u = member_names nm !! u.
Proof.
  intros Hinv Hcov Hk. destruct o as [evt|members|excluded]; simpl in *.
  - unfold handle_member.
    destruct (decide (me_room_id evt ≠ main_room)); [done|].
    unfold mbind, M_bind, bind at 1, gets at 1. cbv beta iota.
    destruct (decide (me_state_key evt ∈ excluded_members nm)) as [|Hex];
      [done|].
    destruct (decide (me_membership evt ≠ JOIN)).
    + destruct (remove_member_ok (me_state_key evt) nm Hinv)
        as (nm'&E&_&_&M&_). rewrite E. simpl. by rewrite M.
    + destruct (index_member_ok (me_state_key evt) (me_displayname evt) nm
                  Hex Hinv Hcov) as (nm'&servers&E&_&_&_&_&M&_).
      unfold mbind, M_bind in E. rewrite E. simpl. rewrite M.
      destruct Hk as [Hk|Hk]; [|done]. by rewrite lookup_insert_ne.
  - revert nm Hinv Hcov Hk. unfold load_members.
    induction members as [|item rest IH]; intros nm Hinv Hcov Hk; [done|].
    destruct (load_member_ok item nm Hinv Hcov) as (nm1&E1&I1&C1&_).
    change (for_each (item :: rest) load_member)
      with (load_member item ≫= fun _ => for_each rest load_member).
    rewrite (bind_returns (load_member item)
               (fun _ => for_each rest load_member) nm tt nm1 E1).
    rewrite IH; [|done|done|].
    2:{ intros Hin. apply Hk. rewrite fmap_cons. by right. }
    destruct item as [user_id displayname]. unfold load_member in E1.
    rewrite (bind_returns _ _ nm (excluded_members nm) nm) in E1 by done.
    destruct (decide (user_id ∈ excluded_members nm)) as [|Hex].
    { by injection E1 as <-. }
    destruct (index_member_ok user_id displayname nm Hex Hinv Hcov)
      as (nm2&servers&E2&_&_&_&_&M&_).
    unfold mbind, M_bind in E1, E2. rewrite E2 in E1. injection E1 as <-.
    rewrite M. rewrite lookup_insert_ne; [done|].
    intros ->. apply Hk. rewrite fmap_cons. by left.
  - done.
Qed.

Lemma keeps_name_run main_room u ops : ∀ nm,
  index_inv nm → names_cover nm → Forall (keeps_name u) ops →
  member_names (run_ops main_room nm ops) !! u = member_names nm !! u.
Proof.
  induction ops as [|o rest IH]; intros nm Hinv Hcov Hk; [done|].
  apply Forall_cons in Hk as [Ho Hrest].
  destruct (apply_op_ok main_room o nm Hinv Hcov) as (nm'&E&I&C&_).
  simpl. rewrite IH.
  - by apply keeps_name_step.
  - by rewrite E.
  - by rewrite E.
  - done.
Qed.

(** C10: after every sequence of name-index operations, every key of
    [mxid_to_servers] is a key of [member_names], so the name lookups of the
    directory and of the ping query find every name; a non-join event of a
    member leaves [member_names] as it is and takes the member out of both
    server mappings; and the member's name then stays the same under every
    later operation that is no join of the member and no snapshot that lists
    the member. *)
Theorem names_cover_after_ops main_room tl excluded ops :
  let nm := run_ops main_room (mkNameMonitor tl ∅ ∅ ∅ excluded) ops in
  dom (mxid_to_servers nm) ⊆ dom (member_names nm)
  ∧ (∃ names, directory_names nm = inl names)
  ∧ (∃ names, ping_names nm = inl names)
  ∧ ∀ evt,
      me_room_id evt = main_room →
      me_membership evt ≠ JOIN →
      me_state_key evt ∉ excluded_members nm →
      let u := me_state_key evt in
      let nm' := (handle_member main_room evt nm).2 in
      (handle_member main_room evt nm).1 = inl tt
      ∧ member_names nm' = member_names nm
      ∧ (u ∉ dom (mxid_to_servers nm'))
      ∧ (∀ s, u ∉ mxids_of nm' s)
      ∧ ∀ later, Forall (keeps_name u) later →
          member_names (run_ops main_room nm' later) !! u
          = member_names nm !! u.
Proof.
  intros nm.
  destruct (run_ops_ok main_room ops (mkNameMonitor tl ∅ ∅ ∅ excluded))
    as (Hinv&Hcov&_&_).
  { split; [intros s u|intros s X]; unfold mxids_of, servers_of; simpl.
    - by rewrite !lookup_empty.
    - by rewrite lookup_empty. }
  { unfold names_cover. simpl. by rewrite dom_empty_L. }
  fold nm in Hinv, Hcov.
  split; [exact Hcov|]. split; [|split].
  - apply names_of_returns. intros u Hu%elem_of_elements. by apply Hcov.
  - apply names_of_returns. intros u Hu%elem_of_elements. apply Hcov.
    apply elem_of_dom in Hu as [X HX]. apply map_lookup_filter_Some in HX.
    apply elem_of_dom. exists X. apply HX.
  - intros evt Hroom Hmem Hex u nm'. subst u nm'.
    destruct (remove_member_ok (me_state_key evt) nm Hinv)
      as (nm'&E&I&T&M&Ex&X&Hgone).
    assert (handle_member main_room evt nm = (inl tt, nm')) as ->.
    { unfold handle_member.
      destruct (decide (me_room_id evt ≠ main_room)); [done|].
      rewrite (bind_returns _ _ nm (excluded_members nm) nm) by done.
      destruct (decide (me_state_key evt ∈ excluded_members nm)); [done|].
      by destruct (decide (me_membership evt ≠ JOIN)). }
    simpl. split; [done|]. split; [done|]. split.
    { rewrite X, dom_delete_L. set_solver. }
    split; [done|]. intros later Hk.
    rewrite keeps_name_run; [by rewrite M|done| |done].
    unfold names_cover in *. rewrite X, M, dom_delete_L.
    intros x Hx. apply Hcov. set_solver.
Qed.


(** [parse_name] against the specification: the strings. *)

#[local] Arguments String.append : simpl nomatch.

Lemma str_app_assoc (a b c : string) : (a ++ b) ++ c = a ++ (b ++ c).
Proof. induction a as [|x a IH]; [done|]. simpl. by rewrite IH. Qed.

Lemma lower_app a b : lower (a ++ b) = lower a ++ lower b.
Proof. induction a as [|c t IH]; [done|]. simpl. by rewrite IH. Qed.

Lemma lower_empty w : lower w = EmptyString ↔ w = EmptyString.
Proof. by destruct w. Qed.

Lemma split_last_dot_None w :
  split_last_dot w = None ↔ contains_dot w = false.
Proof.
  induction w as [|c t IH]; [done|]. simpl.
  destruct (split_last_dot t) as [[d tld]|] eqn:Ht.
  - split; [done|]. intros [_ H]%orb_false_iff.
    apply (proj2 IH) in H. done.
  - destruct (c =? ".")%char; simpl; [done|]. by rewrite <-IH.
Qed.

Lemma split_last_dot_Some w d tld :
  split_last_dot w = Some (d, tld)
  ↔ w = d ++ "." ++ tld ∧ contains_dot tld = false.
Proof.
  revert d. induction w as [|c t IH]; intros d; simpl.
  - split; [done|]. intros [H _]. by destruct d.
  - split.
    + intros H. case_eq (split_last_dot t);
        [intros [d' tld'] Ht|intros Ht]; rewrite Ht in H.
      * injection H as <- <-. apply IH in Ht as [-> ?]. done.
      * destruct (c =? ".")%char eqn:Hc; [|done]. injection H as <- <-.
        apply Ascii.eqb_eq in Hc as ->. split; [done|].
        by apply split_last_dot_None.
    + intros [Hw Hd]. destruct d as [|c' d]; simpl in Hw.
      * injection Hw as -> ->.
        by rewrite (proj2 (split_last_dot_None tld) Hd).
      * injection Hw as -> ->.
        by rewrite (proj2 (IH d) (conj eq_refl Hd)).
Qed.

Lemma split_last_dot_lower w :
  split_last_dot (lower w)
  = match split_last_dot w with
    | Some (d, tld) => Some (lower d, lower tld)
    | None => None
    end.
Proof.
  induction w as [|c t IH]; [done|]. simpl. rewrite IH, lower_char_dot.
  destruct (split_last_dot t) as [[d tld]|]; [done|].
  by destruct (c =? ".")%char.
Qed.

(** What the body of the inner loop accepts is what the specification
    accepts. *)
Lemma accepted_iff tl word :
  accepted tl word
  ↔ contains_dot word = true
    ∧ ∃ domain tld, rsplit1 (lower word) = [domain; tld]
        ∧ domain ≠ EmptyString ∧ tld ∈ tl.
Proof.
  unfold accepted, rsplit1. rewrite split_last_dot_lower. split.
  - intros (label&tld&Hw&Hd&Hl&Ht).
    assert (split_last_dot word = Some (label, tld)) as E
      by by apply split_last_dot_Some.
    split.
    + destruct (contains_dot word) eqn:Hc; [done|].
      apply (proj2 (split_last_dot_None _)) in Hc. congruence.
    + rewrite E. exists (lower label), (lower tld).
      split; [done|]. split; [|done]. by rewrite lower_empty.
  - intros (Hc&domain&tld&E&Hd&Ht).
    destruct (split_last_dot word) as [[d t]|] eqn:Hs.
    + injection E as <- <-. apply split_last_dot_Some in Hs as [-> ?].
      exists d, t. split; [done|]. split; [done|]. split; [|done].
      by rewrite lower_empty in Hd.
    + done.
Qed.

Lemma parse_words_spec tl words : ∀ output,
  ∃ output', parse_words tl words output = inl output'
    ∧ ∀ s, s ∈ output'
        ↔ s ∈ output ∨ ∃ w, w ∈ words ∧ accepted tl w ∧ s = lower w.
Proof.
  induction words as [|word rest IH]; intros output.
  - exists output. split; [done|]. intros s. split; [by left|].
    intros [?|(w&Hw&_)]; [done|]. by apply elem_of_nil in Hw.
  - simpl. destruct (contains_dot word) eqn:Hd; simpl.
    + pose proof (accepted_iff tl word) as Hacc. rewrite Hd in Hacc.
      unfold rsplit1 in *.
      destruct (split_last_dot_is_Some (lower word)) as [[d tld] E].
      { by rewrite contains_dot_lower. }
      rewrite E in *.
      destruct (bool_decide (d = EmptyString) || bool_decide (tld ∉ tl))
        eqn:Hrej.
      * destruct (IH output) as (o&->&Ho). exists o. split; [done|].
        intros s. rewrite Ho. split.
        -- intros [?|(w&?&?&?)]; [by left|]. right. exists w.
           split; [by right|done].
        -- intros [?|(w&[->|?]%elem_of_cons&Hw&->)]; [by left| |].
           ++ exfalso. apply Hacc in Hw as (_&d'&t'&[= <- <-]&?&?).
              apply orb_true_iff in Hrej as [H|H];
                apply bool_decide_eq_true in H; done.
           ++ right. by exists w.
      * apply orb_false_iff in Hrej as [H1 H2].
        apply bool_decide_eq_false in H1, H2.
        destruct (IH ({[lower word]} ∪ output)) as (o&->&Ho).
        exists o. split; [done|]. intros s. rewrite Ho. split.
        -- intros [[->%elem_of_singleton|?]%elem_of_union|(w&?&?&?)].
           ++ right. exists word. split; [by left|]. split; [|done].
              apply Hacc. split; [done|]. exists d, tld.
              split; [done|]. split; [done|].
              by destruct (decide (tld ∈ tl)).
           ++ by left.
           ++ right. exists w. split; [by right|done].
        -- intros [?|(w&[->|?]%elem_of_cons&Hw&->)].
           ++ left. apply elem_of_union. by right.
           ++ left. apply elem_of_union. left. by apply elem_of_singleton.
           ++ right. by exists w.
    + destruct (IH output) as (o&->&Ho). exists o. split; [done|].
      intros s. rewrite Ho. split.
      * intros [?|(w&?&?&?)]; [by left|]. right. exists w.
        split; [by right|done].
      * intros [?|(w&[->|?]%elem_of_cons&Hw&->)]; [by left| |].
        -- exfalso. apply accepted_iff in Hw as [Hw _]. congruence.
        -- right. by exists w.
Qed.


(** [separator_split] gives the pieces between separators. *)








(** [finditer] gives bracketed groups, and finds one when there is one. *)

Lemma lazy_group_Some s g r :
  lazy_group s = Some (g, r) →
  s = g ++ "]" ++ r ∧ has_char newline g = false
  ∧ (String.length r < String.length s)%nat.
Proof.
  revert g. induction s as [|c t IH]; intros g; simpl; [done|].
  destruct (Ascii.eqb_spec c "]") as [->|Hc].
  { intros [= <- <-]. split; [done|]. split; [done|]. simpl. lia. }
  destruct (c =? newline)%char eqn:Hn; [done|].
  destruct (lazy_group t) as [[g' r']|]; [|done].
  intros [= <- <-]. destruct (IH g' eq_refl) as (->&Hg&Hl).
  split; [done|]. split; [|lia]. simpl. by rewrite Hn.
Qed.

Lemma match_at_Some s g r :
  match_at s = Some (g, r) →
  s = "[" ++ g ++ "]" ++ r ∧ g ≠ EmptyString ∧ has_char newline g = false
  ∧ (String.length r < String.length s)%nat.
Proof.
  unfold match_at. destruct s as [|b [|c t]]; [done..|].
  destruct (Ascii.eqb_spec b "[") as [->|]; [|done]. simpl.
  destruct (c =? newline)%char eqn:Hn; [done|]. simpl.
  destruct (lazy_group t) as [[g' r']|] eqn:Hl; [|done].
  intros [= <- <-]. apply lazy_group_Some in Hl as (->&Hg&Hl).
  split; [done|]. split; [done|]. split; [|simpl in Hl |- *; lia].
  simpl. by rewrite Hn.
Qed.

Lemma finditer_fuel_group n : ∀ s g,
  g ∈ finditer_fuel n s →
  ∃ pre post, s = pre ++ "[" ++ g ++ "]" ++ post
    ∧ g ≠ EmptyString ∧ has_char newline g = false.
Proof.
  induction n as [|n IH]; intros s g; simpl.
  { intros H. by apply elem_of_nil in H. }
  destruct s as [|c t]. { intros H. by apply elem_of_nil in H. }
  destruct (match_at (String c t)) as [[g' r]|] eqn:Hm.
  - apply match_at_Some in Hm as (Hs&?&?&_).
    intros [->|Hin]%elem_of_cons.
    + exists EmptyString, r. by rewrite Hs.
    + destruct (IH r g Hin) as (pre&post&->&?&?).
      exists ("[" ++ g' ++ "]" ++ pre), post. split; [|done].
      rewrite Hs. simpl. f_equal. rewrite ?str_app_assoc. simpl.
      by rewrite ?str_app_assoc.
  - intros Hin. destruct (IH t g Hin) as (pre&post&->&?&?).
    by exists (String c pre), post.
Qed.

(** The fuel of [finditer], the length of the string, is enough: more fuel
    gives the same matches. *)
Lemma finditer_fuel_enough n : ∀ m s,
  (String.length s ≤ n)%nat → (String.length s ≤ m)%nat →
  finditer_fuel n s = finditer_fuel m s.
Proof.
  induction n as [|n IH]; intros m s Hn Hm.
  - destruct s; [|simpl in Hn; lia]. by destruct m.
  - destruct s as [|c t]; [by destruct m|].
    destruct m as [|m]; [simpl in Hm; lia|]. simpl in *.
    destruct (match t with
              | EmptyString => None
              | String c0 t0 =>
                  if (c =? "[")%char && negb (c0 =? newline)%char
                  then match lazy_group t0 with
                       | Some (g, r) => Some (String c0 g, r)
                       | None => None
                       end
                  else None
              end) as [[g r]|] eqn:Hmatch.
    + assert (match_at (String c t) = Some (g, r)) as Hm' by done.
      apply match_at_Some in Hm' as (_&_&_&Hl). simpl in Hl.
      f_equal. apply IH; lia.
    + apply IH; lia.
Qed.





Lemma parse_chunks_spec tl chunks : ∀ output,
  ∃ output', parse_chunks tl chunks output = inl output'
    ∧ ∀ s, s ∈ output'
        ↔ s ∈ output
          ∨ ∃ chunk w, chunk ∈ chunks ∧ w ∈ separator_split chunk
              ∧ accepted tl w ∧ s = lower w.
Proof.
  induction chunks as [|chunk rest IH]; intros output.
  - exists output. split; [done|]. intros s. split; [by left|].
    intros [?|(c&w&Hc&_)]; [done|]. by apply elem_of_nil in Hc.
  - simpl.
    destruct (parse_words_spec tl (separator_split chunk) output)
      as (o1&->&H1).
    destruct (IH o1) as (o2&->&H2). exists o2. split; [done|].
    intros s. rewrite H2, H1. split.
    + intros [[?|(w&?&?&?)]|(c&w&?&?&?&?)].
      * by left.
      * right. exists chunk, w. split; [by left|done].
      * right. exists c, w. split; [by right|done].
    + intros [?|(c&w&[->|?]%elem_of_cons&?&?&?)].
      * left. by left.
      * left. right. by exists w.
      * right. by exists c, w.
Qed.


(** ** More on the name index and on [parse_name] *)

(** X11: the loop of [load_members] and the handler of member events are
    the same code twice: loading a member from the snapshot does to the
    object and returns what [handle_member] does and returns on a join
    event of the main room for that user with that display name. *)
Theorem load_member_as_join main_room user_id displayname nm :
  load_member (user_id, displayname) nm
  = handle_member main_room
      (mkMemberEvent main_room user_id JOIN displayname) nm.
Proof.
  unfold load_member, handle_member.
  destruct (decide (me_room_id _ ≠ main_room)) as [Hne|_]; [by destruct Hne|].
  unfold mbind, M_bind, bind, gets. cbn [me_state_key me_displayname].
  destruct (decide (user_id ∈ excluded_members nm)); [done|].
  by destruct (decide (me_membership _ ≠ JOIN)) as [Hne|_];
    [destruct Hne|].
Qed.

(** X12: events that the name monitor drops: a member event of another
    room, and a member event of an excluded user, of any membership, return
    and leave the object as it is; so does a leave, ban, invite or knock of
    a user who is not in the index, since [pop] has a default. *)
Theorem member_event_dropped main_room evt nm :
  me_room_id evt ≠ main_room
  ∨ me_state_key evt ∈ excluded_members nm
  ∨ (me_membership evt ≠ JOIN
     ∧ mxid_to_servers nm !! me_state_key evt = None) →
  handle_member main_room evt nm = (inl tt, nm).
Proof.
  intros Hcase. unfold handle_member.
  destruct (decide (me_room_id evt ≠ main_room)) as [|Hroom]; [done|].
  unfold mbind, M_bind, bind, gets. simpl.
  destruct (decide (me_state_key evt ∈ excluded_members nm)) as [|Hex];
    [done|].
  destruct Hcase as [?|[?|[Hm Hnone]]]; [done|done|].
  rewrite decide_True by done.
  unfold _remove_member, mbind, M_bind, bind, gets, modify. simpl.
  rewrite Hnone. simpl. rewrite elements_empty. simpl. unfold ret.
  f_equal. destruct nm as [tl names m2s s2m ex]. unfold set_mxid_to_servers.
  simpl in *. by rewrite delete_id.
Qed.

(** The forward mapping determines the inverse one: two objects that keep
    the invariant and agree on [mxid_to_servers] agree on
    [server_to_mxids]. *)
Lemma inverse_determined nm nm' :
  index_inv nm → index_inv nm' →
  mxid_to_servers nm' = mxid_to_servers nm →
  server_to_mxids nm' = server_to_mxids nm.
Proof.
  intros [Hbi Hne] [Hbi' Hne'] Hfw. apply map_eq. intros s.
  assert (mxids_of nm' s = mxids_of nm s) as Hsame.
  { apply set_eq. intros u. rewrite (Hbi' s u), (Hbi s u). unfold servers_of.
    by rewrite Hfw. }
  unfold mxids_of in Hsame.
  destruct (server_to_mxids nm' !! s) as [X|] eqn:E';
    destruct (server_to_mxids nm !! s) as [Y|] eqn:E; simpl in Hsame.
  - by rewrite Hsame.
  - by destruct (Hne' s X E').
  - by destruct (Hne s Y E).
  - done.
Qed.

(** A join event of the main room, for a user who is not excluded. *)
Lemma join_indexed main_room evt nm :
  index_inv nm →
  me_room_id evt = main_room →
  me_state_key evt ∉ excluded_members nm →
  me_membership evt = JOIN →
  ∃ nm' servers,
    handle_member main_room evt nm = (inl tt, nm')
    ∧ parse_name (tlds nm) (me_displayname evt) = inl servers
    ∧ index_inv nm'
    ∧ tlds nm' = tlds nm
    ∧ excluded_members nm' = excluded_members nm
    ∧ member_names nm'
      = <[me_state_key evt :=
            str_or (me_displayname evt) (me_state_key evt)]>
          (member_names nm)
    ∧ mxid_to_servers nm'
      = <[me_state_key evt := servers]> (mxid_to_servers nm).
Proof.
  intros Hinv Hroom Hex Hjoin. unfold handle_member.
  rewrite decide_False by (by intros H).
  unfold mbind, M_bind, bind at 1, gets at 1. cbv beta iota.
  rewrite decide_False by done.
  rewrite decide_False by (by intros H).
  unfold bind, gets, modify. cbv beta iota.
  set (nm1 := set_member_names _ nm).
  assert (index_inv nm1) as Hinv1 by done.
  change (tlds nm1) with (tlds nm).
  destruct (parse_name_returns (tlds nm) (me_displayname evt))
    as [servers Hparse].
  rewrite Hparse. simpl.
  destruct (update_member_ok (me_state_key evt) servers nm1 Hinv1)
    as (nm2&E2&I2&T2&M2&Ex2&X2).
  exists nm2, servers. by rewrite E2.
Qed.

(** X13: a join event of the main room, for a user who is not excluded,
    leaves the index telling the servers of the display name of the event
    and nothing else for that user: the user is listed under a server
    exactly if [parse_name] finds the server in the name, whatever was
    listed before; the lists of the other users are as before; the name
    recorded is the display name, or the user id when the name is missing
    or empty. *)
Theorem join_indexes_latest_name main_room evt nm :
  index_inv nm →
  me_room_id evt = main_room →
  me_state_key evt ∉ excluded_members nm →
  me_membership evt = JOIN →
  ∃ nm' servers,
    handle_member main_room evt nm = (inl tt, nm')
    ∧ parse_name (tlds nm) (me_displayname evt) = inl servers
    ∧ (∀ s, me_state_key evt ∈ mxids_of nm' s ↔ s ∈ servers)
    ∧ (∀ s v, v ≠ me_state_key evt →
         v ∈ mxids_of nm' s ↔ v ∈ mxids_of nm s)
    ∧ member_names nm' !! me_state_key evt
      = Some (str_or (me_displayname evt) (me_state_key evt)).
Proof.
  intros Hinv Hroom Hex Hjoin.
  destruct (join_indexed main_room evt nm Hinv Hroom Hex Hjoin)
    as (nm'&servers&E&Hparse&[Hbi' _]&_&_&Hnames&Hfw).
  exists nm', servers. split; [done|]. split; [done|].
  destruct Hinv as [Hbi _]. split; [|split].
  - intros s. rewrite (Hbi' s _). unfold servers_of.
    by rewrite Hfw, lookup_insert_eq.
  - intros s v Hv. rewrite (Hbi' s v), (Hbi s v). unfold servers_of.
    by rewrite Hfw, lookup_insert_ne.
  - by rewrite Hnames, lookup_insert_eq.
Qed.

(** A member event of the main room that is no join, for a user who is
    not excluded. *)
Lemma leave_removes main_room evt nm :
  me_room_id evt = main_room →
  me_state_key evt ∉ excluded_members nm →
  me_membership evt ≠ JOIN →
  handle_member main_room evt nm = _remove_member (me_state_key evt) nm.
Proof.
  intros Hroom Hex Hm. unfold handle_member.
  rewrite decide_False by (by intros H).
  unfold mbind, M_bind, bind at 1, gets at 1. cbv beta iota.
  rewrite decide_False by done. by rewrite decide_True by done.
Qed.

Lemma nm_eq nm nm' :
  tlds nm' = tlds nm → member_names nm' = member_names nm →
  mxid_to_servers nm' = mxid_to_servers nm →
  server_to_mxids nm' = server_to_mxids nm →
  excluded_members nm' = excluded_members nm →
  nm' = nm.
Proof. destruct nm, nm'. simpl. by intros -> -> -> -> ->. Qed.

(** X14: handling a member event of the main room twice is handling it
    once: on the object that the handler left, the same event changes
    nothing. *)
Theorem member_event_idempotent main_room evt nm :
  index_inv nm →
  ∃ nm',
    handle_member main_room evt nm = (inl tt, nm')
    ∧ handle_member main_room evt nm' = (inl tt, nm').
Proof.
  intros Hinv.
  destruct (decide (me_room_id evt = main_room)) as [Hroom|Hroom].
  2:{ exists nm. unfold handle_member. by rewrite !decide_True by done. }
  destruct (decide (me_state_key evt ∈ excluded_members nm)) as [Hex|Hex].
  { exists nm. unfold handle_member. rewrite decide_False by (by intros H).
    unfold mbind, M_bind, bind, gets. by rewrite decide_True by done. }
  destruct (decide (me_membership evt = JOIN)) as [Hjoin|Hjoin].
  - destruct (join_indexed main_room evt nm Hinv Hroom Hex Hjoin)
      as (nm1&servers&E1&Hparse&Hinv1&T1&Ex1&N1&F1).
    exists nm1. split; [done|].
    destruct (join_indexed main_room evt nm1 Hinv1 Hroom) as
      (nm2&servers2&E2&Hparse2&Hinv2&T2&Ex2&N2&F2); [by rewrite Ex1|done|].
    rewrite E2. f_equal.
    assert (servers2 = servers) as -> by congruence.
    assert (mxid_to_servers nm2 = mxid_to_servers nm1) as Hfw.
    { by rewrite F2, F1, insert_insert_eq. }
    apply nm_eq; try congruence.
    + by rewrite N2, N1, insert_insert_eq.
    + by apply inverse_determined.
  - rewrite (leave_removes main_room evt nm Hroom Hex Hjoin).
    destruct (remove_member_ok (me_state_key evt) nm Hinv)
      as (nm1&E1&Hinv1&T1&N1&Ex1&F1&_).
    exists nm1. split; [done|].
    rewrite (leave_removes main_room evt nm1 Hroom) by (by rewrite ?Ex1).
    destruct (remove_member_ok (me_state_key evt) nm1 Hinv1)
      as (nm2&E2&Hinv2&T2&N2&Ex2&F2&_).
    rewrite E2. f_equal.
    assert (mxid_to_servers nm2 = mxid_to_servers nm1) as Hfw.
    { rewrite F2, F1. apply delete_id, lookup_delete_eq. }
    apply nm_eq; try congruence. by apply inverse_determined.
Qed.

(** X15: a round trip: when a user who is not in the index joins the main
    room and then leaves it (or is banned), both server mappings are again
    what they were before the join, whatever the display name was; only the
    name stays behind in [member_names]. *)
Theorem join_then_leave_restores main_room joined gone nm :
  index_inv nm →
  me_room_id joined = main_room → me_room_id gone = main_room →
  me_state_key gone = me_state_key joined →
  me_membership joined = JOIN → me_membership gone ≠ JOIN →
  me_state_key joined ∉ excluded_members nm →
  mxid_to_servers nm !! me_state_key joined = None →
  ∃ nm1 nm2,
    handle_member main_room joined nm = (inl tt, nm1)
    ∧ handle_member main_room gone nm1 = (inl tt, nm2)
    ∧ mxid_to_servers nm2 = mxid_to_servers nm
    ∧ server_to_mxids nm2 = server_to_mxids nm
    ∧ member_names nm2
      = <[me_state_key joined :=
            str_or (me_displayname joined) (me_state_key joined)]>
          (member_names nm).
Proof.
  intros Hinv Hroom Hroom' Hkey Hjoin Hgone Hex Hfresh.
  destruct (join_indexed main_room joined nm Hinv Hroom Hex Hjoin)
    as (nm1&servers&E1&Hparse&Hinv1&T1&Ex1&N1&F1).
  exists nm1.
  destruct (remove_member_ok (me_state_key joined) nm1 Hinv1)
    as (nm2&E2&Hinv2&T2&N2&Ex2&F2&_).
  exists nm2. split; [done|].
  assert (mxid_to_servers nm2 = mxid_to_servers nm) as Hfw.
  { rewrite F2, F1, delete_insert_eq. by apply delete_id. }
  split; [|split; [done|split; [by apply inverse_determined|congruence]]].
  rewrite (leave_removes main_room gone nm1 Hroom') by (by rewrite ?Hkey, ?Ex1).
  by rewrite Hkey.
Qed.


Lemma accepted_mono tl tl' w : tl ⊆ tl' → accepted tl w → accepted tl' w.
Proof.
  intros Hsub (label&tld&?&?&?&Hin). exists label, tld.
  repeat (split; [done|]). by apply Hsub.
Qed.

(** X17: [parse_name] grows with the set of TLDs: every server found with
    a set is found with a larger one; with the empty set, which is what the
    object holds until [start] has read the file, no server is found in any
    name. *)
Theorem parse_name_grows_with_tlds tl tl' name :
  tl ⊆ tl' →
  (∃ output output',
     parse_name tl name = inl output ∧ parse_name tl' name = inl output'
     ∧ output ⊆ output')
  ∧ parse_name ∅ name = inl ∅.
Proof.
  intros Hsub. unfold parse_name. split.
  - destruct (parse_chunks_spec tl (finditer (default EmptyString name)) ∅)
      as (o&->&Ho).
    destruct (parse_chunks_spec tl' (finditer (default EmptyString name)) ∅)
      as (o'&->&Ho').
    exists o, o'. split; [done|]. split; [done|].
    intros s. rewrite Ho, Ho'.
    intros [?|(chunk&w&?&?&Hacc&?)]; [by left|]. right.
    exists chunk, w. repeat (split; [done|]). split; [|done].
    by apply (accepted_mono tl tl').
  - destruct (parse_chunks_spec ∅ (finditer (default EmptyString name)) ∅)
      as (o&->&Ho).
    f_equal. apply set_eq. intros s. rewrite Ho. split; [|set_solver].
    intros [?|(chunk&w&_&_&(label&tld&_&_&_&Hin)&_)]; [done|].
    by apply not_elem_of_empty in Hin.
Qed.

Lemma lazy_group_shortest s g r :
  lazy_group s = Some (g, r) → has_char "]" g = false.
Proof.
  revert g. induction s as [|c t IH]; intros g; simpl; [done|].
  destruct (c =? "]")%char eqn:Hc; [by intros [= <- <-]|].
  destruct (c =? newline)%char; [done|].
  destruct (lazy_group t) as [[g' r']|]; [|done].
  intros [= <- <-]. simpl. rewrite Hc. by apply IH.
Qed.

Lemma finditer_fuel_shortest n : ∀ s g,
  g ∈ finditer_fuel n s →
  ∃ c g', g = String c g' ∧ has_char "]" g' = false.
Proof.
  induction n as [|n IH]; intros s g; simpl.
  { intros H. by apply elem_of_nil in H. }
  destruct s as [|b t]. { intros H. by apply elem_of_nil in H. }
  destruct (match_at (String b t)) as [[g0 r]|] eqn:Hm.
  - intros [->|Hin]%elem_of_cons; [|by apply (IH r)].
    unfold match_at in Hm. destruct t as [|c t]; [done|].
    destruct (_ && _); [|done].
    destruct (lazy_group t) as [[g' r']|] eqn:Hl; [|done].
    injection Hm as <- <-. exists c, g'. split; [done|].
    by apply (lazy_group_shortest t g' r').
  - apply IH.
Qed.

(** X18: the group of [bracket_regex] is lazy: a group found in a name has
    a first character, which may be any character but a newline, and after
    it no closing bracket, so that the match ends at the first closing
    bracket that follows. *)
Theorem groups_end_at_first_bracket name group :
  group ∈ finditer name →
  ∃ c rest,
    group = String c rest ∧ c ≠ newline
    ∧ has_char "]" rest = false ∧ has_char newline rest = false.
Proof.
  intros Hin. unfold finditer in Hin.
  destruct (finditer_fuel_shortest _ _ _ Hin) as (c&rest&->&Hclose).
  destruct (finditer_fuel_group _ _ _ Hin) as (_&_&_&_&Hnl).
  simpl in Hnl. apply orb_false_iff in Hnl as [Hc Hrest].
  exists c, rest. split; [done|]. split; [|done].
  intros ->. by rewrite Ascii.eqb_refl in Hc.
Qed.





(** The invariant holds on empty server mappings. *)
Lemma index_inv_empty tl names excluded :
  index_inv (mkNameMonitor tl names ∅ ∅ excluded).
Proof.
  split.
  - intros s u. unfold mxids_of, servers_of. simpl. by rewrite !lookup_empty.
  - intros s mxids. simpl. by rewrite lookup_empty.
Qed.

(** The theorem of X12 on a join event of an excluded user. *)
Lemma member_event_dropped_witness :
  let nm := mkNameMonitor {["org"]} ∅ ∅ ∅ {["@bot:hall"]} in
  handle_member "!main:hall"
    (mkMemberEvent "!main:hall" "@bot:hall" JOIN (Some "Bot [hall.org]")) nm
  = (inl tt, nm).
Proof.
  apply (member_event_dropped "!main:hall"
           (mkMemberEvent "!main:hall" "@bot:hall" JOIN
              (Some "Bot [hall.org]"))
           (mkNameMonitor {["org"]} ∅ ∅ ∅ {["@bot:hall"]})).
  right. left. simpl. by apply elem_of_singleton.
Defined.

(** The theorem of X13 on the first join of a user with a server in the
    name. *)
Lemma join_indexes_latest_name_witness :
  let nm := mkNameMonitor {["org"]} ∅ ∅ ∅ ∅ in
  let evt := mkMemberEvent "!main:hall" "@alice:example.org" JOIN
               (Some "Alice [example.org]") in
  ∃ nm' servers,
    handle_member "!main:hall" evt nm = (inl tt, nm')
    ∧ parse_name (tlds nm) (me_displayname evt) = inl servers
    ∧ (∀ s, me_state_key evt ∈ mxids_of nm' s ↔ s ∈ servers)
    ∧ (∀ s v, v ≠ me_state_key evt →
         v ∈ mxids_of nm' s ↔ v ∈ mxids_of nm s)
    ∧ member_names nm' !! me_state_key evt
      = Some (str_or (me_displayname evt) (me_state_key evt)).
Proof.
  apply (join_indexes_latest_name "!main:hall"
           (mkMemberEvent "!main:hall" "@alice:example.org" JOIN
              (Some "Alice [example.org]"))
           (mkNameMonitor {["org"]} ∅ ∅ ∅ ∅)).
  - apply index_inv_empty.
  - reflexivity.
  - apply not_elem_of_empty.
  - reflexivity.
Defined.

(** The theorem of X14 on a join event. *)
Lemma member_event_idempotent_witness :
  let nm := mkNameMonitor {["org"]} ∅ ∅ ∅ ∅ in
  let evt := mkMemberEvent "!main:hall" "@alice:example.org" JOIN
               (Some "Alice [example.org]") in
  ∃ nm',
    handle_member "!main:hall" evt nm = (inl tt, nm')
    ∧ handle_member "!main:hall" evt nm' = (inl tt, nm').
Proof.
  apply (member_event_idempotent "!main:hall"
           (mkMemberEvent "!main:hall" "@alice:example.org" JOIN
              (Some "Alice [example.org]"))
           (mkNameMonitor {["org"]} ∅ ∅ ∅ ∅)).
  apply index_inv_empty.
Defined.

(** The theorem of X15 on a user who joins and is banned. *)
Lemma join_then_leave_restores_witness :
  let nm := mkNameMonitor {["org"]} ∅ ∅ ∅ ∅ in
  let joined := mkMemberEvent "!main:hall" "@alice:example.org" JOIN
                  (Some "Alice [example.org]") in
  let gone := mkMemberEvent "!main:hall" "@alice:example.org" BAN None in
  ∃ nm1 nm2,
    handle_member "!main:hall" joined nm = (inl tt, nm1)
    ∧ handle_member "!main:hall" gone nm1 = (inl tt, nm2)
    ∧ mxid_to_servers nm2 = mxid_to_servers nm
    ∧ server_to_mxids nm2 = server_to_mxids nm
    ∧ member_names nm2
      = <[me_state_key joined :=
            str_or (me_displayname joined) (me_state_key joined)]>
          (member_names nm).
Proof.
  apply (join_then_leave_restores "!main:hall"
           (mkMemberEvent "!main:hall" "@alice:example.org" JOIN
              (Some "Alice [example.org]"))
           (mkMemberEvent "!main:hall" "@alice:example.org" BAN None)
           (mkNameMonitor {["org"]} ∅ ∅ ∅ ∅)).
  - apply index_inv_empty.
  - reflexivity.
  - reflexivity.
  - reflexivity.
  - reflexivity.
  - discriminate.
  - apply not_elem_of_empty.
  - reflexivity.
Defined.

(** The theorem of X17 on a set of TLDs that gains one. *)
Lemma parse_name_grows_with_tlds_witness :
  (∃ output output',
     parse_name {["org"]} (Some "[a.org b.net]") = inl output
     ∧ parse_name {["org"; "net"]} (Some "[a.org b.net]") = inl output'
     ∧ output ⊆ output')
  ∧ parse_name ∅ (Some "[a.org b.net]") = inl ∅.
Proof.
  apply (parse_name_grows_with_tlds {["org"]} {["org"; "net"]}
           (Some "[a.org b.net]")).
  intros x Hx. apply elem_of_union. by left.
Defined.

(** The theorem of X18 on a name with two closing brackets in a row. *)
Lemma groups_end_at_first_bracket_witness :
  ∃ c rest,
    "a.org" = String c rest ∧ c ≠ newline
    ∧ has_char "]" rest = false ∧ has_char newline rest = false.
Proof.
  apply (groups_end_at_first_bracket "Alice [a.org]] [b.org]" "a.org").
  vm_compute. apply elem_of_cons. by left.
Defined.


End NamemonitorFacts.

(** ** Coroutines run alone *)

Module AsyncFacts.
Import Mautrix Wellknown Async.

Lemma after_did {S A B} (a : action) (r1 : result S A) (r2 : result S B) :
  after (did a r1) r2 = did a (after r1 r2).
Proof. done. Qed.

Lemma with_out_did {S A B} (a : action) (r : result S A) (o : outcome B) :
  with_out (did a r) o = did a (with_out r o).
Proof. done. Qed.

(** A coroutine followed by another: the second one runs on what the first
    one leaves, if the first one returns. *)
Ltac exec_cases IH :=
  simpl;
  repeat match goal with
    | |- context [match ?i with [] => _ | _ :: _ => _ end] =>
        destruct i as [|[] ?]; simpl
    | lk : bool |- context [if ?b then _ else _] =>
        is_var b; destruct b; simpl
    end;
  rewrite ?IH; simpl;
  try match goal with
    | |- context [out ?r] => by destruct (out r)
    | |- context [after _ ?r] => by destruct r
    end;
  try done.

(** A coroutine followed by another: the second one runs on what the first
    one leaves, if the first one returns. *)
Lemma exec_bind {S A B} (f : A → prog S B) (p : prog S A) :
  ∀ inputs s lk,
    exec (p ≫= f) inputs s lk =
      let r := exec p inputs s lk in
      match out r with
      | Returned a => after r (exec (f a) (unused r) (final r) (locked r))
      | Raised e => with_out r (Raised e)
      | Stuck => with_out r Stuck
      end.
Proof.
  unfold mbind, prog_bind.
  induction p as [a|e|k IH|s' k IH|k IH|l k IH|k IH|k IH|url k IH
                  |room c k IH|room ev k IH|room ev rs k IH];
    intros inputs s lk; exec_cases IH.
Qed.

(** [try] and [except]: the handler runs on what the body leaves, if the
    body raises. *)
Lemma exec_try_except {S A} (p : prog S A) (h : exn → prog S A) :
  ∀ inputs s lk,
    exec (try_except p h) inputs s lk =
      let r := exec p inputs s lk in
      match out r with
      | Raised e => after r (exec (h e) (unused r) (final r) (locked r))
      | _ => r
      end.
Proof.
  induction p as [a|e|k IH|s' k IH|k IH|l k IH|k IH|k IH|url k IH
                  |room c k IH|room ev k IH|room ev rs k IH];
    intros inputs s lk; exec_cases IH.
Qed.

(** [async with]: the body runs with the lock held, and the lock is free
    again when the body has returned or raised. *)
Lemma exec_with_lock {S A} (body : prog S A) inputs s :
  exec (with_lock body) inputs s false =
    let r := exec body inputs s true in
    match out r with
    | Stuck => r
    | _ => mkResult (final r) false (trace r) (out r) (unused r)
    end.
Proof.
  unfold with_lock. simpl. rewrite exec_try_except, exec_bind. simpl.
  destruct (exec body inputs s true) as [f l t [a|e|] u];
    unfold after, with_out; simpl; by rewrite ?app_nil_r.
Qed.

(** *** Interleaved coroutines: what a guarantee of every stretch gives *)

Section scheduler.
Context {S E : Type} (handler : E → prog S unit).
Context (G : E → S → S → option call → Prop).

(** A stretch that [G] allows, run: it ends in a state and at a call that
    [G] allows, and what is left of the coroutine is allowed to go on. *)
Lemma advance_ok e (p : prog S unit) :
  ∀ s0 s lk clock,
    blocks_ok G e p s0 s →
    G e s0 (advance p s lk clock).1.1.2
        (pending_call (advance p s lk clock).1.1.1)
    ∧ task_ok G e (advance p s lk clock).1.1.1.
Proof.
  induction p as [a|x|k IH|s' k IH|k IH|l k IH|k IH|k IH|url k IH
                  |room c k IH|room ev k IH|room ev rs k IH];
    intros s0 s lk clock Hok; simpl in *; try done.
  - by apply IH.
  - by apply IH.
  - by apply IH.
  - specialize (IH s0 s lk clock Hok).
    by destruct (advance k s lk clock) as [[[p' s1] lk'] ls].
  - destruct Hok as (HG&Hk&Hlater). destruct lk; simpl; [done|]. by apply IH.
  - by apply IH.
Qed.

Lemma blocks_ok_task_ok e (p : prog S unit) :
  (∀ s1, blocks_ok G e p s1 s1) → task_ok G e p.
Proof.
  destruct p; simpl; try done.
  - intros H s1. by destruct (H s1) as (_&_&Hk).
  - intros H r s1. by destruct (H s1) as (_&Hk).
  - intros H r s1. by destruct (H s1) as (_&Hk).
  - intros H r s1. by destruct (H s1) as (_&Hk).
  - intros H r s1. by destruct (H s1) as (_&Hk).
Qed.

Lemma run_task_ok sys lk tasks i e p done :
  blocks_ok G e p (sys_state sys) (sys_state sys) →
  Forall (fun t => task_ok G t.1 t.2) tasks →
  Forall (fun x => ∃ a, x = (e, Completed a)) done →
  let sys1 := mkSystem (sys_state sys) lk (sys_clock sys) tasks
                (sys_log sys) in
  let sys' := run_task sys1 i e p done in
  Forall (fun t => task_ok G t.1 t.2) (sys_tasks sys')
  ∧ ∃ c, G e (sys_state sys) (sys_state sys') c ∧ extends sys sys' e c.
Proof.
  intros Hok Htasks Hdone sys1 sys'. subst sys1 sys'. unfold run_task.
  simpl.
  pose proof (advance_ok e p _ _ lk (sys_clock sys) Hok) as [HG Ht].
  destruct (advance p (sys_state sys) lk (sys_clock sys))
    as [[[p' s'] lk'] ls]. simpl in *.
  split.
  - by apply Forall_insert.
  - exists (pending_call p'). split; [done|]. by exists done, ls.
Qed.

Lemma sys_step_ok sys st :
  (∀ e s1, blocks_ok G e (handler e) s1 s1) →
  Forall (fun t => task_ok G t.1 t.2) (sys_tasks sys) →
  let sys' := sys_step handler sys st in
  Forall (fun t => task_ok G t.1 t.2) (sys_tasks sys')
  ∧ ((sys_state sys' = sys_state sys ∧ sys_log sys' = sys_log sys)
     ∨ ∃ e c, G e (sys_state sys) (sys_state sys') c ∧ extends sys sys' e c).
Proof.
  intros Hhandler Htasks sys'. subst sys'.
  destruct st as [e|i|i r|d]; simpl.
  - destruct (run_task_ok sys (sys_lock sys)
                (sys_tasks sys ++ [(e, handler e)])
                (length (sys_tasks sys)) e (handler e) []) as (H1&c&H2&H3).
    + apply Hhandler.
    + apply Forall_app. split; [done|]. apply Forall_singleton. simpl.
      apply blocks_ok_task_ok, Hhandler.
    + by constructor.
    + split; [done|]. right. by exists e, c.
  - destruct (sys_tasks sys !! i) as [[e p]|] eqn:Hi; [|by split; [|left]].
    destruct (runnable p (sys_lock sys)) eqn:Hrun; [|by split; [|left]].
    pose proof (Forall_lookup_1 _ _ _ _ Htasks Hi) as Hp. simpl in Hp.
    assert (blocks_ok G e p (sys_state sys) (sys_state sys)
            ∨ ∃ k, p = Acquire k ∧ sys_lock sys = false
                ∧ blocks_ok G e k (sys_state sys) (sys_state sys)) as Hcase.
    { destruct p; simpl in Hrun, Hp; try done;
        try (left; simpl; intros; apply Hp).
      right. eexists. split; [done|]. split; [|done].
      by destruct (sys_lock sys). }
    destruct Hcase as [Hok|(k&->&Hlk&Hok)].
    + destruct (run_task_ok sys (sys_lock sys) (sys_tasks sys) i e p [] Hok
                  Htasks)
        as (H1&c&H2&H3); [by constructor|].
      destruct sys as [s lk clock tasks lg]. simpl in *.
      split; [done|]. right. by exists e, c.
    + destruct (run_task_ok sys true (sys_tasks sys) i e k [] Hok Htasks)
        as (H1&c&H2&H3); [by constructor|].
      destruct sys as [s lk clock tasks lg]. simpl in *. subst lk.
      split; [done|]. right. by exists e, c.
  - destruct (sys_tasks sys !! i) as [[e p]|] eqn:Hi; [|by split; [|left]].
    destruct (resume p r) as [[a p1]|] eqn:Hres; [|by split; [|left]].
    pose proof (Forall_lookup_1 _ _ _ _ Htasks Hi) as Hp. simpl in Hp.
    assert (blocks_ok G e p1 (sys_state sys) (sys_state sys)) as Hok.
    { destruct p, r; simpl in Hres; try done;
        injection Hres as <- <-; apply Hp. }
    destruct (run_task_ok sys (sys_lock sys) (sys_tasks sys) i e p1
                [(e, Completed a)] Hok Htasks) as (H1&c&H2&H3).
    { apply Forall_singleton. by exists a. }
    destruct sys as [s lk clock tasks lg]. simpl in *.
    split; [done|]. right. by exists e, c.
  - destruct (Qle_bool 0 d); by split; [|left].
Qed.

(** A step of the system: nothing happens to the state and the log, or one
    coroutine, of the event just delivered or of an event delivered before,
    runs one stretch that [G] allows. *)
Lemma sys_step_stretch sys st :
  (∀ e s1, blocks_ok G e (handler e) s1 s1) →
  Forall (fun t => task_ok G t.1 t.2) (sys_tasks sys) →
  let sys' := sys_step handler sys st in
  Forall (fun t => task_ok G t.1 t.2) (sys_tasks sys')
  ∧ ((sys_state sys' = sys_state sys ∧ sys_log sys' = sys_log sys)
     ∨ ∃ e c,
         G e (sys_state sys) (sys_state sys') c ∧ extends sys sys' e c
         ∧ (st = Deliver e ∨ e ∈ (sys_tasks sys).*1)).
Proof.
  intros Hhandler Htasks sys'. subst sys'.
  destruct st as [e|i|i r|d]; simpl.
  - destruct (run_task_ok sys (sys_lock sys)
                (sys_tasks sys ++ [(e, handler e)])
                (length (sys_tasks sys)) e (handler e) []) as (H1&c&H2&H3).
    + apply Hhandler.
    + apply Forall_app. split; [done|]. apply Forall_singleton. simpl.
      apply blocks_ok_task_ok, Hhandler.
    + by constructor.
    + split; [done|]. right. exists e, c. split; [done|]. split; [done|].
      by left.
  - destruct (sys_tasks sys !! i) as [[e p]|] eqn:Hi; [|by split; [|left]].
    destruct (runnable p (sys_lock sys)) eqn:Hrun; [|by split; [|left]].
    pose proof (Forall_lookup_1 _ _ _ _ Htasks Hi) as Hp. simpl in Hp.
    assert (e ∈ (sys_tasks sys).*1) as Hev.
    { apply list_elem_of_fmap. exists (e, p). split; [done|].
      by eapply list_elem_of_lookup_2. }
    assert (blocks_ok G e p (sys_state sys) (sys_state sys)
            ∨ ∃ k, p = Acquire k ∧ sys_lock sys = false
                ∧ blocks_ok G e k (sys_state sys) (sys_state sys)) as Hcase.
    { destruct p; simpl in Hrun, Hp; try done;
        try (left; simpl; intros; apply Hp).
      right. eexists. split; [done|]. split; [|done].
      by destruct (sys_lock sys). }
    destruct Hcase as [Hok|(k&->&Hlk&Hok)].
    + destruct (run_task_ok sys (sys_lock sys) (sys_tasks sys) i e p [] Hok
                  Htasks)
        as (H1&c&H2&H3); [by constructor|].
      destruct sys as [s lk clock tasks lg]. simpl in *.
      split; [done|]. right. exists e, c. by repeat split; try right.
    + destruct (run_task_ok sys true (sys_tasks sys) i e k [] Hok Htasks)
        as (H1&c&H2&H3); [by constructor|].
      destruct sys as [s lk clock tasks lg]. simpl in *. subst lk.
      split; [done|]. right. exists e, c. by repeat split; try right.
  - destruct (sys_tasks sys !! i) as [[e p]|] eqn:Hi; [|by split; [|left]].
    destruct (resume p r) as [[a p1]|] eqn:Hres; [|by split; [|left]].
    pose proof (Forall_lookup_1 _ _ _ _ Htasks Hi) as Hp. simpl in Hp.
    assert (e ∈ (sys_tasks sys).*1) as Hev.
    { apply list_elem_of_fmap. exists (e, p). split; [done|].
      by eapply list_elem_of_lookup_2. }
    assert (blocks_ok G e p1 (sys_state sys) (sys_state sys)) as Hok.
    { destruct p, r; simpl in Hres; try done;
        injection Hres as <- <-; apply Hp. }
    destruct (run_task_ok sys (sys_lock sys) (sys_tasks sys) i e p1
                [(e, Completed a)] Hok Htasks) as (H1&c&H2&H3).
    { apply Forall_singleton. by exists a. }
    destruct sys as [s lk clock tasks lg]. simpl in *.
    split; [done|]. right. exists e, c. by repeat split; try right.
  - destruct (Qle_bool 0 d); by split; [|left].
Qed.

(** The events of the coroutines of the system after a step: those of
    before, and the event delivered. *)
Lemma sys_step_events (sys : system S E) st e :
  e ∈ (sys_tasks (sys_step handler sys st)).*1 →
  e ∈ (sys_tasks sys).*1 ∨ st = Deliver e.
Proof.
  assert (∀ (tasks : list (E * prog S unit)) i e0 p p',
            tasks !! i = Some (e0, p) →
            (<[i := (e0, p')]> tasks).*1 = tasks.*1) as Hsame.
  { intros tasks i e0 p p' Hi. rewrite list_fmap_insert. simpl.
    apply list_insert_id. by rewrite list_lookup_fmap, Hi. }
  destruct st as [e1|i|i r|d]; simpl; unfold run_task; simpl.
  - destruct (advance (handler e1) _ _ _) as [[[p' s'] lk'] ls]. simpl.
    rewrite (Hsame _ _ e1 (handler e1)).
    + rewrite fmap_app. simpl. intros [H|H%list_elem_of_singleton]%elem_of_app.
      * by left.
      * right. by subst.
    + by rewrite lookup_app_r, Nat.sub_diag.
  - destruct (sys_tasks sys !! i) as [[e0 p]|] eqn:Hi; [|by left].
    destruct (runnable p (sys_lock sys)); [|by left].
    destruct (advance p _ _ _) as [[[p' s'] lk'] ls]. simpl.
    rewrite (Hsame _ _ e0 p p' Hi). by left.
  - destruct (sys_tasks sys !! i) as [[e0 p]|] eqn:Hi; [|by left].
    destruct (resume p r) as [[a p1]|]; [|by left].
    destruct (advance p1 _ _ _) as [[[p' s'] lk'] ls]. simpl.
    rewrite (Hsame _ _ e0 p p' Hi). by left.
  - destruct (Qle_bool 0 d); by left.
Qed.

End scheduler.

(** *** Interleaved coroutines: the lock *)

Section lock.
Context {S E : Type} (handler : E → prog S unit).

(** A stretch of a coroutine that keeps to the discipline: where it stops,
    it holds the lock or not, and the lock is held exactly if it holds it or,
    as before, another coroutine does. *)
Lemma advance_lock_ok (p : prog S unit) :
  ∀ h s lk clock,
    lock_ok h p →
    (h = true → lk = true) →
    ∃ h',
      lock_ok h' (advance p s lk clock).1.1.1
      ∧ (advance p s lk clock).1.2 = (if negb h && lk then true else h')
      ∧ (negb h && lk = true → h' = false)
      ∧ (h' = true → is_Some (pending_call (advance p s lk clock).1.1.1)).
Proof.
  induction p as [a|x|k IH|s' k IH|k IH|l k IH|k IH|k IH|url k IH
                  |room c k IH|room ev k IH|room ev rs k IH];
    intros h s lk clock Hok Hheld; simpl in *;
    try (by apply IH);
    try (subst h; exists false; by destruct lk);
    try (exists h; destruct h; [rewrite Hheld by done|destruct lk];
         repeat split; try done; by eexists).
  - specialize (IH h s lk clock Hok Hheld).
    by destruct (advance k s lk clock) as [[[p' s1] lk'] ls].
  - destruct Hok as [-> Hk]. destruct lk; simpl.
    + exists false. by repeat split.
    + destruct (IH true s true clock Hk (fun _ => eq_refl)) as (h'&H1&H2&_&H4).
      exists h'. by repeat split.
  - destruct Hok as [-> Hk]. rewrite Hheld by done.
    destruct (IH false s false clock Hk) as (h'&H1&H2&_&H4); [done|].
    exists h'. by repeat split.
Qed.

Lemma holders_app (l1 l2 : list bool) :
  holders (l1 ++ l2)%list = (holders l1 + holders l2)%nat.
Proof. unfold holders. by rewrite List.filter_app, length_app. Qed.

Lemma holders_insert (hs : list bool) (i : nat) (h h' : bool) :
  hs !! i = Some h →
  (holders (<[i := h']> hs) + (if h then 1 else 0)
   = holders hs + (if h' then 1 else 0))%nat.
Proof.
  intros Hi.
  rewrite <-(take_drop_middle hs i h Hi) at 2.
  rewrite insert_take_drop by (by eapply lookup_lt_Some).
  rewrite !holders_app.
  change (holders (h' :: drop (Datatypes.S i) hs))
    with (holders ([h'] ++ drop (Datatypes.S i) hs)%list).
  change (holders (h :: drop (Datatypes.S i) hs))
    with (holders ([h] ++ drop (Datatypes.S i) hs)%list).
  rewrite !holders_app. unfold holders at 2 5. destruct h, h'; simpl; lia.
Qed.

(** Coroutine [i], which keeps to the discipline, runs a stretch. *)
Lemma run_task_lock_ok (sys : system S E) hs i e p h done :
  lock_inv sys hs →
  hs !! i = Some h →
  lock_ok h p →
  lock_inv (run_task sys i e p done)
    (<[i := if negb h && sys_lock sys then false
            else (advance p (sys_state sys) (sys_lock sys)
                    (sys_clock sys)).1.2]> hs).
Proof.
  intros [Htasks Hcount] Hi Hok.
  assert (h = true → sys_lock sys = true) as Hheld.
  { intros ->. destruct (sys_lock sys) eqn:Hlk; [done|].
    pose proof (holders_insert hs i true false Hi) as Hins.
    simpl in Hins. lia. }
  destruct (advance_lock_ok p h (sys_state sys) (sys_lock sys)
              (sys_clock sys) Hok Hheld) as (h'&H1&H2&H3&H4).
  unfold run_task.
  destruct (advance p (sys_state sys) (sys_lock sys) (sys_clock sys))
    as [[[p' s'] lk'] ls]. simpl in *.
  assert ((if negb h && sys_lock sys then false else lk') = h') as ->.
  { subst lk'. destruct (negb h && sys_lock sys) eqn:Hb; [|done].
    by rewrite H3. }
  split; simpl.
  - apply Forall2_insert; [done|]. by split.
  - pose proof (holders_insert hs i h h' Hi) as Hins.
    subst lk'. destruct h; simpl in *.
    + rewrite Hheld in Hcount by done. destruct h'; lia.
    + destruct (sys_lock sys); simpl in *.
      * rewrite H3 in * by done. lia.
      * destruct h'; lia.
Qed.

(** The discipline is kept by every step of the system, if every handler
    keeps to it from its start. *)
Lemma sys_step_lock_ok (sys : system S E) hs st :
  (∀ e, lock_ok false (handler e)) →
  lock_inv sys hs →
  ∃ hs', lock_inv (sys_step handler sys st) hs'.
Proof.
  intros Hhandler Hinv. pose proof Hinv as [Htasks Hcount].
  destruct st as [e|i|i r|d]; simpl.
  - eexists.
    apply (run_task_lock_ok
             (mkSystem (sys_state sys) (sys_lock sys) (sys_clock sys)
                (sys_tasks sys ++ [(e, handler e)]) (sys_log sys))
             (hs ++ [false])%list (length (sys_tasks sys)) e (handler e) false []).
    + split; simpl.
      * apply Forall2_app; [done|]. constructor; [|by constructor].
        split; [apply Hhandler|done].
      * rewrite holders_app. unfold holders at 2. simpl. lia.
    + rewrite lookup_app_r by (by rewrite (Forall2_length _ _ _ Htasks)).
      by rewrite (Forall2_length _ _ _ Htasks), Nat.sub_diag.
    + apply Hhandler.
  - destruct (sys_tasks sys !! i) as [[e p]|] eqn:Hi; [|by exists hs].
    destruct (runnable p (sys_lock sys)) eqn:Hrun; [|by exists hs].
    destruct (Forall2_lookup_r _ _ _ _ _ Htasks Hi) as (h&Hh&Hok&_).
    eexists. by apply (run_task_lock_ok sys hs i e p h []).
  - destruct (sys_tasks sys !! i) as [[e p]|] eqn:Hi; [|by exists hs].
    destruct (resume p r) as [[a p1]|] eqn:Hres; [|by exists hs].
    destruct (Forall2_lookup_r _ _ _ _ _ Htasks Hi) as (h&Hh&Hok&_).
    eexists. apply (run_task_lock_ok sys hs i e p1 h [(e, Completed a)]);
      [done|done|].
    simpl in Hok. destruct p, r; simpl in Hres; try done;
      injection Hres as <- <-; apply Hok.
  - destruct (Qle_bool 0 d); by exists hs.
Qed.

Lemma sys_run_lock_ok steps : ∀ (sys : system S E) hs,
  (∀ e, lock_ok false (handler e)) →
  lock_inv sys hs →
  ∃ hs', lock_inv (sys_run handler sys steps) hs'.
Proof.
  induction steps as [|st steps IH]; intros sys hs Hhandler Hinv.
  { by exists hs. }
  destruct (sys_step_lock_ok sys hs st Hhandler Hinv) as [hs' Hinv'].
  simpl. by apply (IH _ hs').
Qed.

(** A coroutine holds the lock or not, not both. *)
Lemma lock_ok_unique `{Inhabited S} (p : prog S unit) h1 h2 :
  lock_ok h1 p → lock_ok h2 p → h1 = h2.
Proof.
  induction p as [a|x|k IH|s' k IH|k IH|l k IH|k IH|k IH|url k IH
                  |room c k IH|room ev k IH|room ev rs k IH];
    simpl; intros H1 H2; try congruence; try (by apply IH).
  - by apply (IH inhabitant).
  - by apply (IH 0%Q).
  - by destruct H1 as [-> _], H2 as [-> _].
  - by destruct H1 as [-> _], H2 as [-> _].
  - by apply (IH ConnectionError).
  - by apply (IH (inr KeyError)).
  - by apply (IH (inr KeyError)).
  - by apply (IH (inr KeyError)).
Qed.

Lemma holders_zero (hs : list bool) :
  holders hs = 0%nat → ∀ i h, hs !! i = Some h → h = false.
Proof.
  induction hs as [|h0 hs IH]; intros Hz i h Hi; [done|].
  destruct h0; [done|]. destruct i as [|i]; simpl in Hi; [congruence|].
  by apply (IH Hz i).
Qed.

Lemma holders_one (hs : list bool) :
  holders hs = 1%nat →
  ∃ i, hs !! i = Some true ∧ ∀ j, hs !! j = Some true → j = i.
Proof.
  induction hs as [|h0 hs IH]; intros Hone; [done|]. destruct h0.
  - exists 0%nat. split; [done|]. intros [|j] Hj; [done|].
    simpl in Hj. injection Hone as Hz.
    by pose proof (holders_zero hs Hz j true Hj).
  - destruct (IH Hone) as (i&Hi&Huniq). exists (Datatypes.S i).
    split; [done|]. intros [|j] Hj; [done|]. simpl in Hj.
    by rewrite (Huniq j Hj).
Qed.

End lock.

End AsyncFacts.

(** ** The bot, one handler at a time *)

Module BotFacts.
Import Mautrix Wellknown Async Resolver Bot AsyncFacts.

Section handlers.
Context (config : Config) (client : Client).


Lemma exec_classify sender server reply rest s lk :
  exec (classify sender server) (InHttp reply :: rest) s lk
  = mkResult s lk
      (AHttpGet (support_url server) reply
       :: match fetched reply with
          | Some _ => []
          | None => [ALog (LogFetchFailed server)]
          end)
      (Returned (join_type_for sender reply)) rest.
Proof.
  unfold classify, join_type_for, fetched.
  destruct reply as [|status [wk|]]; simpl; try done;
    destruct (raise_for_status status); simpl; try done.
  by destruct (has_contact wk sender).
Qed.

Lemma exec_check_member sender room_id event_id is_join localpart server
    reply sent rest s lk :
  parse_user_id client sender = inl (localpart, server) →
  exec (_check_member config client sender room_id event_id is_join)
       (InHttp reply :: InSend sent :: rest) s lk
  = mkResult
      (match sent with
       | inl evt_id =>
           record_welcome sender evt_id (join_type_for sender reply) s
       | inr _ => s
       end) lk
      (check_member_trace config client sender room_id event_id server
         is_join reply sent)
      (match sent with inl _ => Returned tt | inr e => Raised e end) rest.
Proof.
  intros Hparse. unfold _check_member. rewrite Hparse.
  change (await (inl (localpart, server)) ≫= ?f) with (f (localpart, server)).
  cbv beta iota. rewrite exec_bind, exec_classify. cbv zeta.
  unfold check_member_trace, record_welcome.
  cbn [out final locked unused trace after].
  destruct sent as [evt_id|e]; simpl;
    destruct (decide (join_type_for sender reply = NEW_IS_LISTED_SUPPORT));
    simpl; by destruct (fetched reply).
Qed.





(** A join in the screening room of a sender that is not skipped, with
    the lock free: the limiter drops it, or the member is checked. *)
Lemma exec_join evt localpart server now reply sent now' rest s :
  se_timeline evt = true →
  se_room_id evt = screening_room config →
  skipped client s (se_sender evt) = false →
  parse_user_id client (se_sender evt) = inl (localpart, server) →
  exec (handle_member config client evt)
       (InClock now :: InHttp reply :: InSend sent :: InClock now' :: rest)
       s false
  = if limiter_admits s now then
      match sent with
      | inl evt_id =>
          mkResult
            (screened (se_sender evt) evt_id
               (join_type_for (se_sender evt) reply) now'
               (limiter_reset s now))
            false
            (check_member_trace config client (se_sender evt)
               (se_room_id evt) (se_event_id evt) server true reply sent)
            (Returned tt) rest
      | inr e =>
          mkResult (limiter_reset s now) false
            (check_member_trace config client (se_sender evt)
               (se_room_id evt) (se_event_id evt) server true reply sent)
            (Raised e) (InClock now' :: rest)
      end
    else
      mkResult s false [ALog LogRateLimited] (Returned tt)
        (InHttp reply :: InSend sent :: InClock now' :: rest).
Proof.
  intros Htl Hroom Hskip Hparse. unfold handle_member.
  rewrite Htl. simpl. destruct (decide _) as [_|]; [|done].
  unfold skipped in Hskip. simpl. rewrite Hskip.
  rewrite exec_with_lock. simpl.
  unfold limiter_admits, limiter_reset, screened.
  destruct (Qlt_le_dec (join_limiter_ts s + 60) now) as [Hlt|Hge]; simpl.
  - rewrite exec_bind, (exec_check_member _ _ _ _ _ _ _ _ _ _ _ Hparse).
    destruct sent; cbv zeta; unfold after, with_out; simpl;
      by rewrite ?app_nil_r.
  - destruct (5 <? join_limiter_count s); simpl; [done|].
    rewrite exec_bind, (exec_check_member _ _ _ _ _ _ _ _ _ _ _ Hparse).
    destruct sent; cbv zeta; unfold after, with_out; simpl;
      by rewrite ?app_nil_r.
Qed.

Lemma record_welcome_limiter sender evt_id jt s :
  join_limiter_count (record_welcome sender evt_id jt s) = join_limiter_count s
  ∧ join_limiter_ts (record_welcome sender evt_id jt s) = join_limiter_ts s
  ∧ space_members (record_welcome sender evt_id jt s) = space_members s.
Proof. unfold record_welcome. by destruct (decide _). Qed.

Lemma record_welcome_welcomed sender evt_id jt s :
  welcomed_users (record_welcome sender evt_id jt s)
  = setdefault sender (Some evt_id) (welcomed_users s).
Proof. unfold record_welcome. by destruct (decide _). Qed.

Lemma limiter_reset_frame s now :
  welcomed_users (limiter_reset s now) = welcomed_users s
  ∧ space_members (limiter_reset s now) = space_members s
  ∧ pending_applications (limiter_reset s now) = pending_applications s
  ∧ join_limiter_ts (limiter_reset s now) = join_limiter_ts s.
Proof. unfold limiter_reset. by destruct (Qlt_le_dec _ _). Qed.

Lemma new_joiner_not_skipped s a :
  new_joiner config client s a → skipped client s (a_sender a) = false.
Proof.
  intros (_&_&H1&H2&H3&_). unfold skipped.
  rewrite !bool_decide_eq_false_2; done.
Qed.

(** One join, run alone: dropped by the limiter, or screened. *)
Lemma deliver_spec a s :
  new_joiner config client s a →
  deliver config client a s
  = if limiter_admits s (a_now a) then
      mkResult
        (screened (a_sender a) (a_evt_id a)
           (join_type_for (a_sender a) (a_reply a)) (a_done a)
           (limiter_reset s (a_now a)))
        false (screening_trace config client a) (Returned tt) []
    else
      mkResult s false [ALog LogRateLimited] (Returned tt)
        [InHttp (a_reply a); InSend (inl (a_evt_id a)); InClock (a_done a)].
Proof.
  intros Hnew. pose proof (new_joiner_not_skipped s a Hnew) as Hskip.
  destruct Hnew as (Htl&Hroom&_&_&_&localpart&server&Hparse).
  unfold deliver, arrival_inputs, screening_trace, server_of.
  rewrite (exec_join _ localpart server) by done.
  rewrite Hparse. reflexivity.
Qed.

Lemma setdefault_fresh {V} k (v : V) (m : gmap string V) :
  k ∉ dom m → setdefault k v m = <[k := v]> m.
Proof.
  intros Hk. unfold setdefault. apply not_elem_of_dom in Hk. by rewrite Hk.
Qed.

(** A join that the limiter lets through. *)
Lemma deliver_admitted a s :
  new_joiner config client s a →
  limiter_admits s (a_now a) = true →
  let r := deliver config client a s in
  trace r = screening_trace config client a ∧ out r = Returned tt
  ∧ join_limiter_count (final r)
    = join_limiter_count (limiter_reset s (a_now a)) + 1
  ∧ join_limiter_ts (final r) = a_done a
  ∧ space_members (final r) = space_members s
  ∧ welcomed_users (final r)
    = <[a_sender a := Some (a_evt_id a)]> (welcomed_users s).
Proof.
  intros Hnew Hadm r. subst r. rewrite (deliver_spec a s Hnew), Hadm.
  cbn [trace out final]. unfold screened. cbn.
  destruct (record_welcome_limiter (a_sender a) (a_evt_id a)
    (join_type_for (a_sender a) (a_reply a)) (limiter_reset s (a_now a)))
    as (->&_&->).
  rewrite record_welcome_welcomed.
  destruct (limiter_reset_frame s (a_now a)) as (->&->&_&_).
  destruct Hnew as (_&_&_&_&Hw&_). by rewrite setdefault_fresh.
Qed.

(** A join that the limiter drops. *)
Lemma deliver_dropped a s :
  new_joiner config client s a →
  limiter_admits s (a_now a) = false →
  let r := deliver config client a s in
  trace r = [ALog LogRateLimited] ∧ out r = Returned tt ∧ final r = s.
Proof.
  intros Hnew Hadm r. subst r. by rewrite (deliver_spec a s Hnew), Hadm.
Qed.

Lemma new_joiner_later s s' a b :
  new_joiner config client s b →
  space_members s' = space_members s →
  welcomed_users s' = <[a_sender a := Some (a_evt_id a)]> (welcomed_users s) →
  a_sender b ≠ a_sender a →
  new_joiner config client s' b.
Proof.
  intros (?&?&?&?&?&?) Hs Hw Hne. repeat split; try done.
  - by rewrite Hs.
  - rewrite Hw, dom_insert_L. set_solver.
Qed.

Lemma in_window_admits s now t0 :
  (t0 <= join_limiter_ts s)%Q → (now <= t0 + 1)%Q →
  limiter_admits s now = negb (5 <? join_limiter_count s)
  ∧ limiter_reset s now = s.
Proof.
  intros H1 H2. unfold limiter_admits, limiter_reset.
  destruct (Qlt_le_dec (join_limiter_ts s + 60) now) as [Hlt|]; [|done].
  exfalso. lra.
Qed.

(** Joins processed one after the other while [join_limiter_ts] cannot be
    60 seconds back: the first [6 - join_limiter_count] are screened, the
    others are dropped. *)
Lemma in_window_burst t0 : ∀ l s,
  let k := Z.to_nat (6 - join_limiter_count s) in
  Forall (new_joiner config client s) l →
  NoDup (map a_sender l) →
  (t0 <= join_limiter_ts s)%Q →
  Forall (λ a, (a_now a <= t0 + 1)%Q) l →
  Forall (λ a, (t0 <= a_done a)%Q) (take k l) →
  Forall2 (λ a r, trace r = screening_trace config client a
                  ∧ out r = Returned tt)
    (take k l) (take k (deliver_all config client l s))
  ∧ Forall (λ r, trace r = [ALog LogRateLimited] ∧ out r = Returned tt
                 ∧ final r = after_all config client (take k l) s)
      (drop k (deliver_all config client l s))
  ∧ after_all config client l s = after_all config client (take k l) s
  ∧ (∀ a, a ∈ take k l →
       welcomed_users (after_all config client l s) !! a_sender a
       = Some (Some (a_evt_id a)))
  ∧ (∀ u, u ∉ map a_sender (take k l) →
       welcomed_users (after_all config client l s) !! u
       = welcomed_users s !! u)
  ∧ space_members (after_all config client l s) = space_members s
  ∧ join_limiter_ts (after_all config client l s)
    = default (join_limiter_ts s) (a_done <$> last (take k l)).
Proof.
  induction l as [|a l IH]; intros s k Hnew Hnd Hts Hnow Hdone.
  { subst k. simpl. rewrite ?take_nil, ?drop_nil. simpl.
    split; [by constructor|]. split; [by constructor|].
    split; [done|]. split; [|done].
    intros a Ha. by apply elem_of_nil in Ha. }
  apply Forall_cons in Hnew as [Ha Hnew].
  apply Forall_cons in Hnow as [Hnowa Hnow].
  simpl in Hnd. apply NoDup_cons in Hnd as [Hfresh Hnd].
  destruct (in_window_admits s (a_now a) t0 Hts Hnowa) as [Hadm Hreset].
  destruct (Z.ltb_spec 5 (join_limiter_count s)) as [Hc|Hc]; simpl in Hadm.
  - (* the counter is above 5: dropped *)
    assert (k = 0%nat) as Hk by (subst k; lia).
    destruct (deliver_dropped a s Ha Hadm) as (Ht&Ho&Hf).
    specialize (IH s). cbv zeta in IH. fold k in IH. rewrite Hk in *.
    simpl in *. unfold after_all in *. simpl. rewrite Hf.
    destruct IH as (_&Hdrop&Hafter&_&Hw&Hsp&Hlts); try done.
    rewrite drop_0 in Hdrop.
    split; [by constructor|]. split; [by constructor|].
    split; [done|]. split; [|done].
    intros b Hb. by apply elem_of_nil in Hb.
  - (* screened *)
    assert (k = S (Z.to_nat (6 - (join_limiter_count s + 1)))) as Hk
      by (subst k; lia).
    destruct (deliver_admitted a s Ha Hadm) as (Ht&Ho&Hcount&Hts'&Hsp&Hw).
    rewrite Hreset in Hcount.
    set (s' := final (deliver config client a s)) in *.
    specialize (IH s'). cbv zeta in IH. rewrite Hcount in IH.
    rewrite Hk in *. set (k' := Z.to_nat (6 - (join_limiter_count s + 1))) in *.
    simpl in Hdone. apply Forall_cons in Hdone as [Hdonea Hdone].
    destruct IH as (Hscr&Hdrop&Hafter&Hwin&Hwout&Hsp'&Hlts); try done.
    { apply Forall_forall. intros b Hb.
      apply (new_joiner_later s s' a b); try done.
      - rewrite Forall_forall in Hnew. by apply Hnew.
      - intros E. apply Hfresh. rewrite <-E. apply list_elem_of_fmap.
        by exists b. }
    { by rewrite Hts'. }
    simpl. unfold after_all in *. simpl. fold s'.
    split; [by constructor|]. split; [done|]. split; [done|].
    split; [|split; [|split]].
    + intros b [->|Hb]%elem_of_cons; [|by apply Hwin].
      rewrite Hwout.
      * by rewrite Hw, lookup_insert_eq.
      * intros Hin. apply Hfresh.
        apply list_elem_of_fmap in Hin as (b&E&Hb).
        apply list_elem_of_fmap. exists b. split; [done|].
        by apply (subseteq_take k' l).
    + intros u Hu. rewrite Hwout.
      * rewrite Hw, lookup_insert_ne; [done|]. intros <-. apply Hu. by left.
      * intros Hin. apply Hu. by right.
    + by rewrite Hsp'.
    + rewrite Hlts, Hts'. destruct (take k' l) as [|b rest]; [done|].
      change (last (a :: b :: rest)) with (last (b :: rest)).
      destruct (last_is_Some (b :: rest)) as [_ [x ->]]; done.
Qed.

Lemma Forall2_with_l {A B} (P : A → B → Prop) (R : A → Prop) l k :
  Forall2 P l k → Forall R l → Forall2 (λ a b, P a b ∧ R a) l k.
Proof.
  induction 1 as [|a b l k HP _ IH]; intros HR; [by constructor|].
  apply Forall_cons in HR as [? ?]. constructor; [done|]. by apply IH.
Qed.

Lemma limiter_reset_count s now :
  join_limiter_count s = 0 → join_limiter_count (limiter_reset s now) = 0.
Proof. unfold limiter_reset. by destruct (Qlt_le_dec _ _). Qed.

Lemma fresh_limiter_admits s now :
  join_limiter_count s = 0 → limiter_admits s now = true.
Proof.
  intros Hc. unfold limiter_admits. rewrite Hc.
  by destruct (Qlt_le_dec _ _).
Qed.

Lemma stale_limiter_admits s now :
  (join_limiter_ts s + 60 < now)%Q → limiter_admits s now = true.
Proof.
  intros Hlt. unfold limiter_admits.
  destruct (Qlt_le_dec _ _) as [|Hge]; [done|]. exfalso. lra.
Qed.

(** C4: seven joins of the screening room by seven distinct new users, with
    the counter at 0 before them and all clock readings, taken in order,
    within one second: the first six are screened (the message is sent and
    the welcome is recorded) and the seventh is dropped, with a log entry, no
    message and no change of state; a further join of another new user at
    least 61 seconds after the seventh is screened. *)
Theorem seven_joins_then_one s0 a1 a2 a3 a4 a5 a6 a7 late :
  join_limiter_count s0 = 0 →
  NoDup (map a_sender [a1; a2; a3; a4; a5; a6; a7; late]) →
  Forall (new_joiner config client s0) [a1; a2; a3; a4; a5; a6; a7; late] →
  ascending [a_now a1; a_done a1; a_now a2; a_done a2; a_now a3; a_done a3;
             a_now a4; a_done a4; a_now a5; a_done a5; a_now a6; a_done a6;
             a_now a7] →
  (a_now a7 <= a_now a1 + 1)%Q →
  (a_now a7 + 61 <= a_now late)%Q →
  let rs := deliver_all config client [a1; a2; a3; a4; a5; a6; a7] s0 in
  let s6 := after_all config client [a1; a2; a3; a4; a5; a6] s0 in
  let s7 := after_all config client [a1; a2; a3; a4; a5; a6; a7] s0 in
  Forall2 (λ a r, trace r = screening_trace config client a
                  ∧ out r = Returned tt
                  ∧ welcomed_users s7 !! a_sender a
                    = Some (Some (a_evt_id a)))
    [a1; a2; a3; a4; a5; a6] (take 6 rs)
  ∧ (∃ r7, rs !! 6%nat = Some r7 ∧ trace r7 = [ALog LogRateLimited]
       ∧ out r7 = Returned tt ∧ final r7 = s6)
  ∧ s7 = s6
  ∧ welcomed_users s7 !! a_sender a7 = None
  ∧ let r := deliver config client late s7 in
    trace r = screening_trace config client late ∧ out r = Returned tt
    ∧ welcomed_users (final r) !! a_sender late
      = Some (Some (a_evt_id late)).
Proof.
  intros Hc Hnd Hnew Hasc H1s H61 rs s6 s7.
  simpl in Hasc.
  destruct Hasc as (c1&c2&c3&c4&c5&c6&c7&c8&c9&c10&c11&c12&_).
  apply Forall_cons in Hnew as [N1 Hnew].
  simpl in Hnd. apply NoDup_cons in Hnd as [F1 Hnd].
  (* the first join *)
  destruct (deliver_admitted a1 s0 N1 (fresh_limiter_admits _ _ Hc))
    as (T1&O1&C1&TS1&SP1&W1).
  rewrite (limiter_reset_count _ _ Hc) in C1.
  set (s1 := final (deliver config client a1 s0)) in *.
  assert (Forall (new_joiner config client s1) [a2; a3; a4; a5; a6; a7; late])
    as Hnew1.
  { apply Forall_forall. intros b Hb.
    apply (new_joiner_later s0 s1 a1 b); try done.
    - rewrite Forall_forall in Hnew. by apply Hnew.
    - intros E. apply F1. rewrite <-E.
      change (a_sender b ∈ a_sender <$> [a2; a3; a4; a5; a6; a7; late]).
      apply list_elem_of_fmap. by exists b. }
  (* the six joins that follow, within the same second *)
  pose proof (in_window_burst (a_now a1) [a2; a3; a4; a5; a6; a7] s1) as HB.
  cbv zeta in HB. rewrite C1 in HB.
  change (Z.to_nat (6 - (0 + 1))) with 5%nat in HB.
  destruct HB as (Hscr&Hdrop&Hafter&Hwin&Hwout&Hsp&Hlts).
  { apply Forall_forall. intros b Hb. rewrite Forall_forall in Hnew1.
    apply Hnew1. set_solver. }
  { change (NoDup (a_sender <$> [a2; a3; a4; a5; a6; a7])).
    change (NoDup (a_sender <$> ([a2; a3; a4; a5; a6; a7] ++ [late])%list)) in Hnd.
    rewrite fmap_app in Hnd. by apply NoDup_app in Hnd as [? _]. }
  { by rewrite TS1. }
  { repeat constructor; lra. }
  { simpl. repeat constructor; lra. }
  assert (after_all config client [a1; a2; a3; a4; a5; a6; a7] s0
          = after_all config client [a2; a3; a4; a5; a6; a7] s1) as E7
    by done.
  assert (after_all config client [a1; a2; a3; a4; a5; a6] s0
          = after_all config client [a2; a3; a4; a5; a6] s1) as E6
    by done.
  assert (∀ b, b ∈ [a7; late] → a_sender b ≠ a_sender a1
               ∧ a_sender b ∉ map a_sender [a2; a3; a4; a5; a6]) as Hother.
  { intros b Hb. split.
    - intros E. apply F1. rewrite <-E.
      change (a_sender b ∈ a_sender <$> [a2; a3; a4; a5; a6; a7; late]).
      apply list_elem_of_fmap. exists b. split; [done|]. set_solver.
    - change (NoDup (a_sender <$> ([a2; a3; a4; a5; a6] ++ [a7; late])%list))
        in Hnd.
      rewrite fmap_app in Hnd. apply NoDup_app in Hnd as (_&Hdis&_).
      intros Hin. apply (Hdis (a_sender b)); [done|].
      apply list_elem_of_fmap. by exists b. }
  assert (∀ b, b ∈ [a7; late] →
            new_joiner config client s0 b →
            welcomed_users s7 !! a_sender b = None) as Hnone.
  { intros b Hb (_&_&_&_&Hw&_). destruct (Hother b Hb) as [Hne Hnin].
    subst s7. rewrite E7, Hwout by done.
    rewrite W1, lookup_insert_ne by done. by apply not_elem_of_dom. }
  subst rs s6 s7. rewrite E7, E6.
  change (deliver_all config client [a1; a2; a3; a4; a5; a6; a7] s0)
    with (deliver config client a1 s0
          :: deliver_all config client [a2; a3; a4; a5; a6; a7] s1).
  simpl take in *. simpl drop in *.
  split; [|split; [|split; [|split]]].
  - constructor.
    + split; [done|]. split; [done|].
      rewrite Hwout.
      * by rewrite W1, lookup_insert_eq.
      * intros Hin. apply F1.
        change (a_sender a1 ∈ a_sender <$> [a2; a3; a4; a5; a6; a7; late]).
        change (a_sender a1 ∈ a_sender <$> [a2; a3; a4; a5; a6]) in Hin.
        apply list_elem_of_fmap in Hin as (b&?&?).
        apply list_elem_of_fmap. exists b. split; [done|]. set_solver.
    + eapply Forall2_impl.
      * apply (Forall2_with_l _
          (λ b, welcomed_users
                  (after_all config client [a2; a3; a4; a5; a6; a7] s1)
                !! a_sender b = Some (Some (a_evt_id b))) _ _ Hscr).
        apply Forall_forall. intros b Hb. by apply Hwin.
      * by intros b r [[? ?] ?].
  - cbn [deliver_all drop] in Hdrop.
    apply Forall_cons in Hdrop as [(?&?&?) _].
    eexists. split; [reflexivity|]. done.
  - done.
  - apply Hnone; [set_solver|]. rewrite Forall_forall in Hnew.
    apply Hnew. set_solver.
  - assert (new_joiner config client s0 late) as Nl.
    { rewrite Forall_forall in Hnew. apply Hnew. set_solver. }
    assert (welcomed_users
              (after_all config client [a2; a3; a4; a5; a6; a7] s1)
            !! a_sender late = None) as Wl.
    { rewrite <-E7. apply Hnone; [set_solver|done]. }
    set (s7 := after_all config client [a2; a3; a4; a5; a6; a7] s1) in *.
    assert (new_joiner config client s7 late) as Nl7.
    { destruct Nl as (?&?&?&?&?&?). repeat split; try done.
      - by rewrite Hsp, SP1.
      - by apply not_elem_of_dom. }
    destruct (deliver_admitted late s7 Nl7) as (T&O&_&_&_&W).
    { apply stale_limiter_admits. rewrite Hlts. simpl. lra. }
    split; [done|]. split; [done|]. by rewrite W, lookup_insert_eq.
Qed.


(** A reaction that passes the guards of [automatic_application], on a
    target that is in the cache. *)
Lemma exec_reaction_cached evt user_id inputs s lk :
  re_sender evt ≠ mxid client →
  re_rel_type evt = ANNOTATION →
  String.prefix thumbs_up (re_key evt) = true →
  pending_applications s !! re_target evt = Some user_id →
  exec (automatic_application config client evt) inputs s lk
  = if decide (user_id = Some (re_sender evt)) then
      match inputs with
      | InSend sent :: rest =>
          mkResult
            (match sent with
             | inl _ => set_pending_applications <[re_target evt := None]> s
             | inr _ => s
             end) lk
            [ASend (re_room_id evt)
               (_make_application_content config client (re_sender evt)) sent]
            (match sent with inl _ => Returned tt | inr e => Raised e end)
            rest
      | _ => mkResult s lk [] Stuck inputs
      end
    else mkResult s lk [] (Returned tt) inputs.
Proof.
  intros Hbot Hrel Hkey Hhit. unfold automatic_application.
  rewrite (bool_decide_eq_false_2 _ Hbot), Hrel, Hkey.
  rewrite bool_decide_eq_false_2 by (by intros H). simpl.
  rewrite Hhit. simpl.
  destruct (decide (user_id = Some (re_sender evt))) as [->|Hne]; simpl.
  - destruct inputs as [|[| |[sent_id|e]| |] rest]; simpl; done.
  - done.
Qed.



(** No action of the given kind is in a list of other actions. *)
Ltac none_such :=
  let H := fresh in
  intros ??? H;
  repeat (apply elem_of_cons in H as [H|H]; [discriminate H|]);
  by apply elem_of_nil in H.

(** C1, as the code has it: an annotation reaction that is not the bot's
    own, with a key that starts with the thumbs-up and a target that is not
    in the cache, makes the handler fetch the target, once, from the room of
    the reaction; unless a message was sent after it, the handler leaves the
    cache holding, for the target, the stamped user id when the fetched event
    is the bot's, and none otherwise, also when the fetch failed, which is
    logged and ends the handler. *)
Theorem reaction_miss_fetches_and_caches evt fetched rest s lk :
  re_sender evt ≠ mxid client →
  re_rel_type evt = ANNOTATION →
  String.prefix thumbs_up (re_key evt) = true →
  pending_applications s !! re_target evt = None →
  let r := exec (automatic_application config client evt)
             (InEvent fetched :: rest) s lk in
  let stamped :=
    match fetched with
    | inl target =>
        if decide (ev_sender target = mxid client) then ev_verified target
        else None
    | inr _ => None
    end in
  (∃ tail,
     trace r = AGetEvent (re_room_id evt) (re_target evt) fetched :: tail
     ∧ ∀ room x reply, AGetEvent room x reply ∉ tail)
  ∧ ((∀ room content reply, ASend room content reply ∉ trace r) →
     final r = set_pending_applications <[re_target evt := stamped]> s)
  ∧ (∀ e, fetched = inr e →
       trace r = [AGetEvent (re_room_id evt) (re_target evt) fetched;
                  ALog (LogGetEventFailed (re_target evt))]
       ∧ out r = Returned tt).
Proof.
  intros Hbot Hrel Hkey Hmiss r stamped. subst r stamped.
  unfold automatic_application.
  rewrite (bool_decide_eq_false_2 _ Hbot), Hrel, Hkey.
  rewrite bool_decide_eq_false_2 by (by intros H). simpl.
  rewrite Hmiss. simpl.
  destruct fetched as [target|e]; simpl.
  - destruct (decide (_ = Some (ev_sender target))) as [Heq|Hne]; simpl.
    + destruct rest as [|[| |[sent_id|e]| |] rest]; simpl;
        (split; [eexists; split; [done|]; none_such|]);
        (split; [|done]); try done;
        intros Hno; exfalso; eapply Hno;
        apply elem_of_cons; right; apply elem_of_cons; left; reflexivity.
    + split; [eexists; split; [done|]; none_such|].
      split; [done|done].
  - split; [eexists; split; [done|]; none_such|].
    split; [done|]. by intros e' _.
Qed.

Lemma setdefault_keeps_none sender (evt_id : option string)
    (m : gmap string (option string)) v :
  m !! v = Some None → setdefault sender evt_id m !! v = Some None.
Proof.
  intros Hv. unfold setdefault. destruct (m !! sender) eqn:Hs; [done|].
  rewrite lookup_insert_ne; [done|]. intros ->. congruence.
Qed.

(** A stretch that left [welcomed_users] as it was, or wrote it with
    [setdefault], and that ends in no redaction. *)
Lemma guarantee_no_redaction e s0 s c :
  (∀ v, welcomed_users s0 !! v = Some None →
        welcomed_users s !! v = Some None) →
  (∀ room x rs, c ≠ Some (CRedact room x rs)) →
  leave_guarantee e s0 s c.
Proof.
  intros Hkeep Hno. split; [done|]. intros room x rs Hc. by destruct (Hno room x rs).
Qed.

Lemma insert_none_keeps sender (m : gmap string (option string)) v :
  m !! v = Some None → <[sender := None]> m !! v = Some None.
Proof.
  intros Hv. destruct (decide (v = sender)) as [->|Hne].
  - apply lookup_insert_eq.
  - by rewrite lookup_insert_ne.
Qed.

(** The stretch of [handle_leave] that claims the id and ends in the
    redaction. *)
Lemma guarantee_redaction e s0 s room o :
  welcomed_users s0 !! sender_of e = Some o →
  truthy o = true →
  welcomed_users s = <[sender_of e := None]> (welcomed_users s0) →
  leave_guarantee e s0 s
    (Some (CRedact room (default EmptyString o) "User left")).
Proof.
  intros Hentry Htruthy Hs. destruct o as [x|]; [|done]. split.
  - intros v Hv. rewrite Hs. by apply insert_none_keeps.
  - intros room' x' rs [= <- <- <-]. split; [done|]. split; [done|]. split.
    + intros ->. done.
    + rewrite Hs. apply lookup_insert_eq.
Qed.

(** A stretch, taken apart: the guarantee at each suspension. *)
Ltac no_redaction :=
  solve [ apply guarantee_no_redaction;
          [ intros v Hv; simpl; try done;
            first [ by apply setdefault_keeps_none
                  | by apply insert_none_keeps ]
          | by intros ??? ]
        | eapply guarantee_redaction; [eassumption|eassumption|reflexivity] ].

Ltac stretch :=
  repeat (unfold await, mbind, prog_bind; simpl;
          first [ no_redaction | intro | case_match | split ]).

(** Every handler keeps to [leave_guarantee], from its start and after
    every suspension. *)
Lemma handler_guarantee e s1 :
  blocks_ok leave_guarantee e (handler config client e) s1 s1.
Proof.
  destruct e as [evt|evt|evt|evt|evt]; simpl.
  - unfold handle_member, _check_member, classify, fetch_support_well_known,
      with_lock.
    stretch.
  - unfold handle_leave, with_lock. stretch.
  - unfold recheck_member, _check_member, classify, fetch_support_well_known.
    stretch.
  - unfold manual_application. stretch.
  - unfold automatic_application. stretch.
Qed.

(** [handle_leave] in the screening room, run alone with the lock free. *)
Lemma exec_leave evt inputs s :
  se_room_id evt = screening_room config →
  exec (handle_leave config evt) inputs s false
  = match welcomed_users s !! se_sender evt with
    | None => mkResult s false [] (Returned tt) inputs
    | Some o =>
        let cleared := set_welcomed_users <[se_sender evt := None]> s in
        if truthy o then
          match inputs with
          | InRedact r :: rest =>
              mkResult cleared false
                [ARedact (se_room_id evt) (default EmptyString o)
                   "User left" r]
                (match r with inl _ => Returned tt | inr e => Raised e end)
                rest
          | _ => mkResult cleared false [] Stuck inputs
          end
        else mkResult cleared false [] (Returned tt) inputs
    end.
Proof.
  intros Hroom. unfold handle_leave. rewrite decide_True by done.
  rewrite exec_bind, exec_with_lock. simpl.
  destruct (welcomed_users s !! se_sender evt) as [o|]; simpl; [|done].
  destruct (truthy o); simpl; [|done].
  destruct inputs as [|[| | | |[[]|e]] rest]; simpl; done.
Qed.

Lemma redactions_for_app user_id (l1 l2 : list (incoming * item)) :
  redactions_for user_id (l1 ++ l2)
  = (redactions_for user_id l1 + redactions_for user_id l2)%nat.
Proof. unfold redactions_for. by rewrite List.filter_app, length_app. Qed.

Lemma redactions_for_completed user_id e (done : list (incoming * item)) :
  Forall (fun x => ∃ a, x = (e, Completed a)) done →
  redactions_for user_id done = 0%nat.
Proof.
  unfold redactions_for. induction 1 as [|x l (a&->) _ IH]; [done|].
  simpl. by destruct e.
Qed.

(** Whatever is delivered, and however the coroutines are interleaved: the
    coroutines that stand in the system go on as [leave_guarantee] allows,
    and once a redaction was issued for a user, it is the only one and the
    entry of the user is cleared. *)
Lemma redaction_invariant user_id steps :
  ∀ sys,
    Forall (fun t => task_ok leave_guarantee t.1 t.2) (sys_tasks sys) →
    redactions_for user_id (sys_log sys) = 0%nat
    ∨ (redactions_for user_id (sys_log sys) = 1%nat
       ∧ welcomed_users (sys_state sys) !! user_id = Some None) →
    (redactions_for user_id
       (sys_log (sys_run (handler config client) sys steps)) ≤ 1)%nat.
Proof.
  induction steps as [|st steps IH]; intros sys Htasks Hcount.
  { simpl. destruct Hcount as [->|[-> _]]; lia. }
  simpl. apply IH;
    destruct (sys_step_ok (handler config client) leave_guarantee sys st
                handler_guarantee Htasks) as (Htasks'&Hstep); [done|].
  destruct Hstep as [[Hs Hl]|(e&c&[Hkeep Hred]&done&ls&Hl&Hdone)].
  { by rewrite Hs, Hl. }
  rewrite Hl, !redactions_for_app, (redactions_for_completed _ e done Hdone).
  assert (redactions_for user_id
            (map (fun l => (e, Completed (ALog l))) ls) = 0%nat) as ->.
  { apply (redactions_for_completed _ e). apply Forall_forall.
    intros x (l&->&_)%list_elem_of_fmap. by eexists. }
  assert (redactions_for user_id
            match c with Some c0 => [(e, Issued c0)] | None => [] end
          = 0%nat
          ∨ ∃ room x rs,
              c = Some (CRedact room x rs) ∧ sender_of e = user_id)
    as [->|(room&x&rs&->&Hu)].
  { destruct c as [[url|room content|room x|room x rs]|];
      try (by left).
    destruct (decide (sender_of e = user_id)) as [Hu|Hu].
    - right. by eexists _, _, _.
    - left. unfold redactions_for. simpl.
      by rewrite bool_decide_eq_false_2. }
  - destruct Hcount as [->|[-> Hnone]]; [by left|]. right.
    split; [done|]. by apply Hkeep.
  - destruct (Hred room x rs eq_refl) as (_&Hbefore&_&Hafter).
    rewrite Hu in Hbefore, Hafter.
    destruct Hcount as [->|[_ Hnone]]; [|congruence].
    right. split; [|done]. unfold redactions_for. simpl.
    by rewrite bool_decide_eq_true_2.
Qed.

(** C6: a leave or ban event of the screening room, handled alone: when
    the sender has no entry in [welcomed_users] nothing is done and nothing
    changes; when there is an entry, it is read and set to none with the
    lock held, and a redaction with the reason [User left] is issued, for
    the id read, exactly when that id is not none (and not empty).  And
    whatever events are delivered, in whatever order their coroutines run
    and get their replies, at most one redaction is ever issued on the leave
    events of a user. *)
Theorem leave_redacts_once evt user_id r rest s s0 lk clock steps :
  se_room_id evt = screening_room config →
  let alone := exec (handle_leave config evt) (InRedact r :: rest) s false in
  (welcomed_users s !! se_sender evt = None →
   alone = mkResult s false [] (Returned tt) (InRedact r :: rest))
  ∧ (∀ o, welcomed_users s !! se_sender evt = Some o →
       final alone = set_welcomed_users <[se_sender evt := None]> s
       ∧ locked alone = false
       ∧ trace alone
         = if truthy o
           then [ARedact (se_room_id evt) (default EmptyString o)
                   "User left" r]
           else [])
  ∧ (redactions_for user_id
       (sys_log (sys_run (handler config client)
                   (mkSystem s0 lk clock [] []) steps)) ≤ 1)%nat.
Proof.
  intros Hroom alone. subst alone. rewrite (exec_leave _ _ _ Hroom).
  split; [by intros ->|]. split.
  - intros o ->. simpl. by destruct (truthy o).
  - apply redaction_invariant; simpl; [by constructor|by left].
Qed.

(** *** More on the handlers *)

(** A member event that [handle_member] drops at once. *)
Lemma exec_member_dropped evt inputs s lk :
  se_timeline evt = false
  ∨ (se_room_id evt ≠ screening_room config
     ∧ se_room_id evt ≠ space_room config)
  ∨ (se_room_id evt = screening_room config
     ∧ (se_sender evt ∈ dom (space_members s)
        ∨ se_sender evt = mxid client
        ∨ se_sender evt ∈ dom (welcomed_users s))) →
  exec (handle_member config client evt) inputs s lk
  = mkResult s lk [] (Returned tt) inputs.
Proof.
  intros Hcase. unfold handle_member.
  destruct (se_timeline evt); simpl; [|done].
  destruct Hcase as [[=]|[[Hscr Hspace]|[Hscr Hwho]]].
  - by rewrite !decide_False by done.
  - rewrite decide_True by done. simpl.
    assert (skipped client s (se_sender evt) = true) as Hskip.
    { unfold skipped. destruct Hwho as [H|[H|H]];
        rewrite (bool_decide_eq_true_2 _ H); by rewrite ?orb_true_r. }
    unfold skipped in Hskip. by rewrite Hskip.
Qed.

(** X1: a member event is dropped by [handle_member] at once (nothing is
    fetched, sent or logged, the state is left as it is, and the handler
    does not wait for the lock even when it is held) when it is not from the
    timeline, when its room is neither the screening room nor the space
    room, and when it is a join of the screening room by a space member, by
    the bot itself, or by a user who has an entry in [welcomed_users]. *)
Theorem join_dropped_at_once evt inputs s lk :
  se_timeline evt = false
  ∨ (se_room_id evt ≠ screening_room config
     ∧ se_room_id evt ≠ space_room config)
  ∨ (se_room_id evt = screening_room config
     ∧ (se_sender evt ∈ dom (space_members s)
        ∨ se_sender evt = mxid client
        ∨ se_sender evt ∈ dom (welcomed_users s))) →
  let r := exec (handle_member config client evt) inputs s lk in
  trace r = [] ∧ final r = s ∧ locked r = lk ∧ out r = Returned tt
  ∧ unused r = inputs.
Proof. intros Hcase r. subst r. by rewrite exec_member_dropped. Qed.

(** X2: the space room is tracked by [handle_member]: a timeline join of
    the space room records the sender as a member, with the membership,
    avatar and display name of the event, a leave or a ban removes the
    sender, any other membership changes nothing; nothing else of the state
    changes and nothing is sent.  Once recorded, the sender's own join of
    the screening room is dropped; once removed, the sender is no member. *)
Theorem space_membership_tracked evt join inputs s lk :
  se_timeline evt = true →
  se_room_id evt = space_room config →
  space_room config ≠ screening_room config →
  se_room_id join = screening_room config →
  se_sender join = se_sender evt →
  let r := exec (handle_member config client evt) inputs s lk in
  r = mkResult
        (match se_membership evt with
         | JOIN =>
             set_space_members
               <[se_sender evt :=
                   mkMember JOIN (se_avatar_url evt) (se_displayname evt)]> s
         | LEAVE | BAN => set_space_members (delete (se_sender evt)) s
         | _ => s
         end) lk [] (Returned tt) inputs
  ∧ (se_membership evt = JOIN →
     exec (handle_member config client join) inputs (final r) lk
     = mkResult (final r) lk [] (Returned tt) inputs)
  ∧ (se_membership evt = LEAVE ∨ se_membership evt = BAN →
     se_sender evt ∉ dom (space_members (final r))).
Proof.
  intros Htl Hroom Hdiff Hjroom Hjsender r.
  assert (r = mkResult
        (match se_membership evt with
         | JOIN =>
             set_space_members
               <[se_sender evt :=
                   mkMember JOIN (se_avatar_url evt) (se_displayname evt)]> s
         | LEAVE | BAN => set_space_members (delete (se_sender evt)) s
         | _ => s
         end) lk [] (Returned tt) inputs) as Hr.
  { subst r. unfold handle_member. rewrite Htl. simpl.
    rewrite decide_False by congruence. rewrite decide_True by done.
    by destruct (se_membership evt) eqn:Hm. }
  split; [done|]. rewrite Hr. simpl. split.
  - intros ->. apply exec_member_dropped. right. right. split; [done|].
    left. rewrite Hjsender. simpl. rewrite dom_insert. set_solver.
  - intros [-> | ->]; simpl; rewrite dom_delete; set_solver.
Qed.

(** X3: a join that the limiter lets through and whose message cannot be
    sent: the exception of the send leaves the handler, the lock is free
    again, the clock is not read a second time, and nothing is recorded: no
    welcome, no pending application, no count and no new timestamp (only
    the reset of the counter, if it was due, has been made); the same user
    is still a new joiner afterwards. *)
Theorem failed_send_charges_nothing a e s :
  new_joiner config client s a →
  limiter_admits s (a_now a) = true →
  let r := exec (handle_member config client (a_evt a))
             [InClock (a_now a); InHttp (a_reply a); InSend (inr e);
              InClock (a_done a)] s false in
  out r = Raised e
  ∧ locked r = false
  ∧ unused r = [InClock (a_done a)]
  ∧ trace r
    = check_member_trace config client (a_sender a) (se_room_id (a_evt a))
        (se_event_id (a_evt a)) (server_of client (a_sender a)) true
        (a_reply a) (inr e)
  ∧ final r = limiter_reset s (a_now a)
  ∧ new_joiner config client (final r) a.
Proof.
  intros Hnew Hadmit r.
  pose proof (new_joiner_not_skipped _ _ Hnew) as Hskip.
  destruct Hnew as (Htl&Hroom&Hsp&Hbot&Hw&localpart&server&Hparse).
  subst r. unfold a_sender in *.
  rewrite (exec_join (a_evt a) localpart server _ _ _ _ _ s
             Htl Hroom Hskip Hparse), Hadmit.
  simpl. unfold server_of. rewrite Hparse.
  repeat (split; [done|]).
  destruct (limiter_reset_frame s (a_now a)) as (Ew&Es&_&_).
  unfold new_joiner, a_sender. rewrite Ew, Es.
  repeat (split; [done|]). by exists localpart, server.
Qed.

(** X4: the recheck command is not rate limited and does not take the lock:
    whatever the counter and whoever the sender, the support file of the
    sender's server is fetched and the message is sent, with the recheck
    prefix, as a reply to the command.  The welcome id of a sender who has
    one (also the none left by a leave) is kept, a sender without one gets
    the id of this message, nobody else's entry changes, and the limiter is
    left alone. *)
Theorem recheck_keeps_first_welcome evt localpart server reply evt_id rest
    s lk :
  parse_user_id client (msg_sender evt) = inl (localpart, server) →
  let r := exec (recheck_member config client evt)
             (InHttp reply :: InSend (inl evt_id) :: rest) s lk in
  trace r
  = check_member_trace config client (msg_sender evt) (msg_room_id evt)
      (msg_event_id evt) server false reply (inl evt_id)
  ∧ out r = Returned tt
  ∧ locked r = lk
  ∧ unused r = rest
  ∧ welcomed_users (final r) !! msg_sender evt
    = Some (default (Some evt_id) (welcomed_users s !! msg_sender evt))
  ∧ (∀ u, u ≠ msg_sender evt →
       welcomed_users (final r) !! u = welcomed_users s !! u)
  ∧ join_limiter_count (final r) = join_limiter_count s
  ∧ join_limiter_ts (final r) = join_limiter_ts s.
Proof.
  intros Hparse r. subst r. unfold recheck_member.
  rewrite (exec_check_member _ _ _ _ _ _ _ _ _ _ _ Hparse). simpl.
  repeat (split; [done|]).
  rewrite record_welcome_welcomed.
  destruct (record_welcome_limiter (msg_sender evt) evt_id
              (join_type_for (msg_sender evt) reply) s) as (Ec&Et&_).
  split; [|split; [|done]].
  - unfold setdefault.
    destruct (welcomed_users s !! msg_sender evt) as [old|] eqn:Hold.
    + by rewrite Hold.
    + by rewrite lookup_insert_eq.
  - intros u Hu. unfold setdefault.
    destruct (welcomed_users s !! msg_sender evt); [done|].
    by rewrite lookup_insert_ne.
Qed.

(** X5: once a leave or ban event of the screening room was handled for a
    user who had an entry in [welcomed_users], the key stays, with none as
    its value: a later join of that user in the screening room is dropped
    at once, so the user is not welcomed again, and a later leave or ban of
    that user redacts nothing and changes nothing. *)
Theorem left_user_not_welcomed_again left join again r inputs s :
  se_room_id left = screening_room config →
  se_room_id join = screening_room config →
  se_room_id again = screening_room config →
  se_sender join = se_sender left →
  se_sender again = se_sender left →
  is_Some (welcomed_users s !! se_sender left) →
  let gone := final (exec (handle_leave config left) [InRedact r] s false) in
  welcomed_users gone !! se_sender left = Some None
  ∧ exec (handle_member config client join) inputs gone false
    = mkResult gone false [] (Returned tt) inputs
  ∧ exec (handle_leave config again) inputs gone false
    = mkResult gone false [] (Returned tt) inputs.
Proof.
  intros Hroom Hjroom Haroom Hjsender Hasender [o Hentry] gone.
  assert (gone = set_welcomed_users <[se_sender left := None]> s) as ->.
  { subst gone. rewrite (exec_leave _ _ _ Hroom), Hentry. simpl.
    by destruct (truthy o). }
  split; [apply lookup_insert_eq|]. split.
  - apply exec_member_dropped.
    destruct (se_timeline join); [|by left]. right. right.
    split; [done|]. right. right. rewrite Hjsender. simpl.
    rewrite dom_insert. set_solver.
  - rewrite (exec_leave _ _ _ Haroom), Hasender. simpl.
    rewrite lookup_insert_eq. simpl. unfold set_welcomed_users. simpl.
    by rewrite insert_insert_eq.
Qed.

(** X6: the apply command always answers, whatever the state: one text
    message is sent to the room of the command, as a reply to it, that
    mentions the sender and then every user of [application_pings]; the
    state and the lock are left alone, and the handler raises exactly when
    the send does. *)
Theorem manual_application_answers evt sent rest s lk :
  let r := exec (manual_application config client evt) (InSend sent :: rest)
             s lk in
  (∃ content,
     trace r = [ASend (msg_room_id evt) content sent]
     ∧ c_msgtype content = TEXT
     ∧ c_mentions content = msg_sender evt :: application_pings config
     ∧ c_reply_to content = Some (msg_event_id evt)
     ∧ c_html content
       = c_html (_make_application_content config client (msg_sender evt)))
  ∧ final r = s ∧ locked r = lk ∧ unused r = rest
  ∧ out r = match sent with inl _ => Returned tt | inr e => Raised e end.
Proof.
  intros r. subst r. unfold manual_application. simpl.
  destruct sent; simpl; (split; [eexists; by repeat split|done]).
Qed.

(** A reaction that passes the guards of [automatic_application], on a
    target that is not in the cache and that the client returns. *)
Lemma exec_reaction_fetched evt target inputs s lk :
  re_sender evt ≠ mxid client →
  re_rel_type evt = ANNOTATION →
  String.prefix thumbs_up (re_key evt) = true →
  pending_applications s !! re_target evt = None →
  let stamped :=
    if decide (ev_sender target = mxid client) then ev_verified target
    else None in
  let cached := set_pending_applications <[re_target evt := stamped]> s in
  let fetch := AGetEvent (re_room_id evt) (re_target evt) (inl target) in
  exec (automatic_application config client evt) (InEvent (inl target) :: inputs)
    s lk
  = if decide (stamped = Some (ev_sender target)) then
      match inputs with
      | InSend sent :: rest =>
          mkResult
            (match sent with
             | inl _ =>
                 set_pending_applications <[re_target evt := None]> cached
             | inr _ => cached
             end) lk
            [fetch;
             ASend (ev_room_id target)
               (_make_application_content config client (ev_sender target))
               sent]
            (match sent with inl _ => Returned tt | inr e => Raised e end)
            rest
      | _ => mkResult cached lk [fetch] Stuck inputs
      end
    else mkResult cached lk [fetch] (Returned tt) inputs.
Proof.
  intros Hbot Hrel Hkey Hmiss stamped cached fetch.
  subst stamped cached fetch. unfold automatic_application.
  rewrite (bool_decide_eq_false_2 _ Hbot), Hrel, Hkey.
  rewrite bool_decide_eq_false_2 by (by intros H). simpl.
  rewrite Hmiss. simpl.
  destruct (decide (_ = Some (ev_sender target))) as [Heq|Hne]; simpl;
    [|done].
  destruct inputs as [|[| |[sent_id|e]| |] rest]; simpl; done.
Qed.

(** X7: on a cache miss the name [evt] is bound anew to the fetched event,
    so the last test of [automatic_application] compares the stamped user
    id with the sender of the fetched event, and the message goes to the
    room of the fetched event: a message is sent exactly when the two are
    equal.  For a welcome that the bot fetches back, stamped with the user
    who reacts, nothing is sent and the user stays cached, so that the same
    reaction once more is answered from the cache. *)
Theorem miss_compares_with_fetched_sender evt target sent rest s lk :
  re_sender evt ≠ mxid client →
  re_rel_type evt = ANNOTATION →
  String.prefix thumbs_up (re_key evt) = true →
  pending_applications s !! re_target evt = None →
  let stamped :=
    if decide (ev_sender target = mxid client) then ev_verified target
    else None in
  let cached := set_pending_applications <[re_target evt := stamped]> s in
  let fetch := AGetEvent (re_room_id evt) (re_target evt) (inl target) in
  let r := exec (automatic_application config client evt)
             (InEvent (inl target) :: InSend sent :: rest) s lk in
  (stamped = Some (ev_sender target) →
   trace r
   = [fetch;
      ASend (ev_room_id target)
        (_make_application_content config client (ev_sender target)) sent])
  ∧ (stamped ≠ Some (ev_sender target) →
     r = mkResult cached lk [fetch] (Returned tt) (InSend sent :: rest))
  ∧ (ev_sender target = mxid client →
     ev_verified target = Some (re_sender evt) →
     r = mkResult cached lk [fetch] (Returned tt) (InSend sent :: rest)
     ∧ trace (exec (automatic_application config client evt)
                (InSend sent :: rest) cached lk)
       = [ASend (re_room_id evt)
            (_make_application_content config client (re_sender evt)) sent]).
Proof.
  intros Hbot Hrel Hkey Hmiss stamped cached fetch r.
  subst r fetch.
  rewrite (exec_reaction_fetched evt target _ s lk Hbot Hrel Hkey Hmiss).
  cbv zeta. fold stamped. fold cached.
  split; [|split].
  - intros Heq. rewrite decide_True by done. by destruct sent.
  - intros Hne. by rewrite decide_False.
  - intros Hsender Hstamp.
    assert (stamped = Some (re_sender evt)) as Hst.
    { subst stamped. by rewrite decide_True. }
    split.
    + rewrite decide_False; [done|]. rewrite Hst, Hsender. congruence.
    + rewrite (exec_reaction_cached evt (Some (re_sender evt)) _ cached lk
                 Hbot Hrel Hkey).
      * rewrite decide_True by done. by destruct sent.
      * subst cached. simpl. by rewrite lookup_insert_eq, Hst.
Qed.



(** Every handler keeps to the lock discipline. *)
Lemma handler_lock_ok e : lock_ok false (handler config client e).
Proof.
  destruct e as [evt|evt|evt|evt|evt]; simpl;
    unfold handle_member, handle_leave, recheck_member, manual_application,
      automatic_application, _check_member, classify,
      fetch_support_well_known, with_lock;
    repeat (unfold await, mbind, prog_bind; simpl;
            first [ done | intro | case_match | split ]).
Qed.

(** X9: whatever events are delivered, and however their coroutines are
    interleaved, starting with the lock free: when the lock is held, it is
    held by exactly one coroutine, which is in its [async with] block and
    waits for a reply, so that the lock is never left held by a coroutine
    that has ended; when the lock is free, no coroutine is in its block. *)
Theorem lock_held_by_one_waiting s0 clock steps :
  let sys := sys_run (handler config client)
               (mkSystem s0 false clock [] []) steps in
  if sys_lock sys then
    ∃ i e p,
      sys_tasks sys !! i = Some (e, p)
      ∧ lock_ok true p ∧ is_Some (pending_call p)
      ∧ ∀ j e' p', sys_tasks sys !! j = Some (e', p') → lock_ok true p' →
          j = i
  else ∀ e p, (e, p) ∈ sys_tasks sys → lock_ok false p.
Proof.
  intros sys.
  destruct (sys_run_lock_ok (handler config client) steps
              (mkSystem s0 false clock [] []) []) as [hs [Htasks Hcount]].
  { apply handler_lock_ok. }
  { split; [by constructor|done]. }
  fold sys in Htasks, Hcount.
  destruct (sys_lock sys).
  - destruct (holders_one hs Hcount) as (i&Hi&Huniq).
    destruct (Forall2_lookup_l _ _ _ _ _ Htasks Hi) as ([e p]&Ht&Hok&Hwait).
    exists i, e, p. split; [done|]. split; [done|]. split; [by apply Hwait|].
    intros j e' p' Hj Hheld.
    destruct (Forall2_lookup_r _ _ _ _ _ Htasks Hj) as (h&Hh&Hok'&_).
    simpl in Hok'.
    rewrite <-(lock_ok_unique (H := populate (start ∅)) p' _ _ Hheld Hok')
      in Hh.
    by apply Huniq.
  - intros e p [j Hj]%list_elem_of_lookup_1.
    destruct (Forall2_lookup_r _ _ _ _ _ Htasks Hj) as (h&Hh&Hok&_).
    by rewrite (holders_zero hs Hcount j h Hh) in Hok.
Qed.

Lemma setdefault_keeps sender (evt_id : option string)
    (m : gmap string (option string)) u v :
  m !! u = Some v → setdefault sender evt_id m !! u = Some v.
Proof.
  intros Hu. unfold setdefault. destruct (m !! sender) eqn:Hs; [done|].
  rewrite lookup_insert_ne; [done|]. intros ->. congruence.
Qed.

Lemma guarantee_welcome_kept e s0 s c :
  (∀ u v, welcomed_users s0 !! u = Some v → welcomed_users s !! u = Some v) →
  welcome_guarantee config e s0 s c.
Proof. intros Hkeep u v Hu. left. by apply Hkeep. Qed.

Ltac welcome_kept :=
  solve [ apply guarantee_welcome_kept; intros ???; simpl; try done;
          by apply setdefault_keeps ].

Ltac welcome_stretch :=
  repeat (unfold await, mbind, prog_bind; simpl;
          first [ welcome_kept | intro | case_match | split ]).

(** Every handler keeps to [welcome_guarantee]. *)
Lemma handler_welcome_guarantee e s1 :
  blocks_ok (welcome_guarantee config) e (handler config client e) s1 s1.
Proof.
  destruct e as [evt|evt|evt|evt|evt]; simpl.
  - unfold handle_member, _check_member, classify, fetch_support_well_known,
      with_lock.
    welcome_stretch.
  - unfold handle_leave, with_lock.
    destruct (decide (se_room_id evt = screening_room config)) as [Hroom|];
      [|welcome_stretch].
    assert (∀ s0 c,
              welcome_guarantee config (OnLeave evt) s0
                (set_welcomed_users <[se_sender evt := None]> s0) c) as Hclear.
    { intros s0 c u v Hu. simpl.
      destruct (decide (u = se_sender evt)) as [->|Hne].
      - right. split; [apply lookup_insert_eq|]. by exists evt.
      - left. by rewrite lookup_insert_ne. }
    repeat (unfold await, mbind, prog_bind; simpl;
            first [ welcome_kept | apply Hclear | intro | case_match
                  | split ]).
  - unfold recheck_member, _check_member, classify, fetch_support_well_known.
    welcome_stretch.
  - unfold manual_application. welcome_stretch.
  - unfold automatic_application. welcome_stretch.
Qed.

(** X10: whatever events are delivered, and however their coroutines are
    interleaved, the welcome id recorded for a user is never replaced by
    another id: it stays, or it is none, and it is none only if a leave or
    ban event of that user in the screening room was delivered. *)
Theorem welcome_id_never_replaced s0 lk clock steps u x :
  welcomed_users s0 !! u = Some (Some x) →
  let sys := sys_run (handler config client) (mkSystem s0 lk clock [] [])
               steps in
  welcomed_users (sys_state sys) !! u = Some (Some x)
  ∨ (welcomed_users (sys_state sys) !! u = Some None
     ∧ ∃ evt, Deliver (OnLeave evt) ∈ steps ∧ se_sender evt = u
         ∧ se_room_id evt = screening_room config).
Proof.
  intros Hentry sys. subst sys.
  set (left_by := fun (l : list (step incoming)) =>
         ∃ evt, Deliver (OnLeave evt) ∈ l ∧ se_sender evt = u
           ∧ se_room_id evt = screening_room config).
  assert (∀ steps prior sys,
            Forall (fun t => task_ok (welcome_guarantee config) t.1 t.2)
              (sys_tasks sys) →
            (∀ e, e ∈ (sys_tasks sys).*1 → Deliver e ∈ prior) →
            welcomed_users (sys_state sys) !! u = Some (Some x)
            ∨ (welcomed_users (sys_state sys) !! u = Some None
               ∧ left_by prior) →
            let sys' := sys_run (handler config client) sys steps in
            welcomed_users (sys_state sys') !! u = Some (Some x)
            ∨ (welcomed_users (sys_state sys') !! u = Some None
               ∧ left_by (prior ++ steps)%list)) as Hrun.
  { clear. intros steps.
    induction steps as [|st steps IH]; intros prior sys Htasks Hprior Hnow.
    { simpl. by rewrite app_nil_r. }
    simpl.
    replace (prior ++ st :: steps)%list with ((prior ++ [st]) ++ steps)%list
      by (by rewrite <-app_assoc).
    destruct (sys_step_stretch (handler config client)
                (welcome_guarantee config) sys st handler_welcome_guarantee
                Htasks) as (Htasks'&Hstep).
    apply IH; [done| |].
    { intros e [He| ->]%sys_step_events; apply elem_of_app.
      - left. by apply Hprior.
      - right. by apply list_elem_of_singleton. }
    assert (∀ l, left_by l → left_by (l ++ [st])%list) as Hmore.
    { intros l (evt&Hin&Hrest). exists evt. split; [|done].
      apply elem_of_app. by left. }
    destruct Hstep as [[Hs _]|(e&c&HG&_&Hev)].
    { rewrite Hs. destruct Hnow as [?|[? ?]]; [by left|right].
      split; [done|]. by apply Hmore. }
    destruct Hnow as [Hsome|[Hnone Hleft]].
    - destruct (HG u _ Hsome) as [?|[Hnone (evt&->&Hu&Hroom)]]; [by left|].
      right. split; [done|]. exists evt. split; [|done].
      apply elem_of_app. destruct Hev as [-> |Hev].
      + right. by apply list_elem_of_singleton.
      + left. by apply Hprior.
    - destruct (HG u _ Hnone) as [?|[? _]]; right; (split; [done|]);
        by apply Hmore. }
  apply (Hrun steps [] (mkSystem s0 lk clock [] [])); simpl.
  - by constructor.
  - by intros e ?%elem_of_nil.
  - by left.
Qed.

End handlers.





(** The theorem of C4 on seven joins within one second, from the start of
    the bot, and an eighth join 61 seconds after the seventh. *)
Lemma seven_joins_then_one_witness :
  let arrive user now :=
    mkArrival (Sample.join ("@" ++ user ++ ":example.org") ("$join-" ++ user))
      now ConnectionError ("$welcome-" ++ user) now in
  let a7 := arrive "g" (1007 # 1000) in
  let late := arrive "h" (62007 # 1000) in
  let burst := [arrive "a" (1001 # 1000); arrive "b" (1002 # 1000);
                arrive "c" (1003 # 1000); arrive "d" (1004 # 1000);
                arrive "e" (1005 # 1000); arrive "f" (1006 # 1000); a7] in
  let s7 := after_all Sample.config Sample.client burst (start ∅) in
  (∃ r7, deliver_all Sample.config Sample.client burst (start ∅) !! 6%nat
         = Some r7
       ∧ trace r7 = [ALog LogRateLimited])
  ∧ welcomed_users s7 !! a_sender a7 = None
  ∧ welcomed_users
      (final (deliver Sample.config Sample.client late s7))
    !! a_sender late = Some (Some (a_evt_id late)).
Proof.
  intros arrive a7 late burst s7.
  assert (∀ user now,
            In user ["a"; "b"; "c"; "d"; "e"; "f"; "g"; "h"] →
            new_joiner Sample.config Sample.client (start ∅)
              (arrive user now)) as Hnew.
  { intros user now Hin.
    split; [reflexivity|]. split; [reflexivity|].
    split; [apply not_elem_of_empty|].
    split.
    { repeat (destruct Hin as [<-|Hin]; [discriminate|]). destruct Hin. }
    split; [apply not_elem_of_empty|].
    exists user, "example.org".
    repeat (destruct Hin as [<-|Hin]; [reflexivity|]). destruct Hin. }
  pose proof (seven_joins_then_one Sample.config Sample.client (start ∅)
              (arrive "a" (1001 # 1000)) (arrive "b" (1002 # 1000))
              (arrive "c" (1003 # 1000)) (arrive "d" (1004 # 1000))
              (arrive "e" (1005 # 1000)) (arrive "f" (1006 # 1000))
              a7 late) as H.
  lapply H; [clear H; intros H|reflexivity].
  lapply H; [clear H; intros H|].
  2:{ apply (@bool_decide_unpack _ (NoDup_dec _)). vm_compute. reflexivity. }
  lapply H; [clear H; intros H|].
  2:{ repeat (apply List.Forall_cons; [apply Hnew; simpl; tauto|]).
      apply List.Forall_nil. }
  lapply H; [clear H; intros H|].
  2:{ unfold arrive, a7. cbn [ascending a_now a_done].
      repeat split; apply Qle_bool_iff; vm_compute; reflexivity. }
  lapply H; [clear H; intros H|apply Qle_bool_iff; vm_compute; reflexivity].
  lapply H; [clear H; intros H|apply Qle_bool_iff; vm_compute; reflexivity].
  cbv zeta in H.
  destruct H as (_&(r7&H7&T7&_)&_&Hn&_&_&Hl).
  split; [exists r7; split; [exact H7|exact T7]|].
  split; [exact Hn|exact Hl].
Defined.


(** The theorem of C1 on a reaction to a welcome that the bot sent before it
    was started again. *)
Lemma reaction_miss_fetches_and_caches_witness :
  let evt := Sample.thumb "@alice:example.org" "$welcome" in
  let fetched :=
    inl (mkEvent "!screening:hall" "@bot:hall" (Some "@alice:example.org")) in
  let r := exec (automatic_application Sample.config Sample.client evt)
             [InEvent fetched] (start ∅) false in
  (∃ tail,
     trace r = AGetEvent "!screening:hall" "$welcome" fetched :: tail
     ∧ ∀ room x reply, AGetEvent room x reply ∉ tail)
  ∧ ((∀ room content reply, ASend room content reply ∉ trace r) →
     final r
     = set_pending_applications <["$welcome" := Some "@alice:example.org"]>
         (start ∅))
  ∧ (∀ e, fetched = inr e →
       trace r = [AGetEvent "!screening:hall" "$welcome" fetched;
                  ALog (LogGetEventFailed "$welcome")]
       ∧ out r = Returned tt).
Proof.
  apply (reaction_miss_fetches_and_caches Sample.config Sample.client
           (Sample.thumb "@alice:example.org" "$welcome")
           (inl (mkEvent "!screening:hall" "@bot:hall"
                   (Some "@alice:example.org")))
           [] (start ∅) false);
    [discriminate|reflexivity|reflexivity|reflexivity].
Defined.

(** C1 as it is stated fails on the guards of the handler: the bot's own
    thumbs-up, and a thumbs-up that is no annotation, on a target that is
    not in the cache, are dropped before anything is fetched. *)
Lemma guarded_reactions_not_fetched :
  let target :=
    mkEvent "!screening:hall" "@bot:hall" (Some "@alice:example.org") in
  let by_bot := Sample.thumb "@bot:hall" "$welcome" in
  let reference :=
    mkReactionEvent "!screening:hall" "@alice:example.org" REFERENCE
      thumbs_up "$welcome" in
  let inputs := [InEvent (inl target); InSend (inl "$received")] in
  let run evt :=
    exec (automatic_application Sample.config Sample.client evt) inputs
      (start ∅) false in
  String.prefix thumbs_up (re_key by_bot) = true
  ∧ String.prefix thumbs_up (re_key reference) = true
  ∧ pending_applications (start ∅) !! "$welcome" = None
  ∧ run by_bot = mkResult (start ∅) false [] (Returned tt) inputs
  ∧ run reference = mkResult (start ∅) false [] (Returned tt) inputs.
Proof. cbv zeta. repeat split; reflexivity. Qed.

(** The theorem of C6 on a welcomed user whose leave event is delivered
    twice, the second time before the redaction of the first is done. *)
Lemma leave_redacts_once_witness :
  let alice := "@alice:example.org" in
  let welcomed := set_welcomed_users <[alice := Some "$welcome"]> (start ∅) in
  let gone := Sample.leave alice "$leave" in
  let twice :=
    [Deliver (OnLeave gone); Deliver (OnLeave gone);
     Reply 0 (InRedact (inl tt)); Reply 1 (InRedact (inl tt))] in
  trace (exec (handle_leave Sample.config gone) [InRedact (inl tt)] welcomed
           false)
  = [ARedact "!screening:hall" "$welcome" "User left" (inl tt)]
  ∧ (redactions_for alice
       (sys_log (sys_run (handler Sample.config Sample.client)
                   (mkSystem welcomed false 0 [] []) twice)) ≤ 1)%nat.
Proof.
  cbv zeta.
  destruct (leave_redacts_once Sample.config Sample.client
              (Sample.leave "@alice:example.org" "$leave")
              "@alice:example.org" (inl tt) []
              (set_welcomed_users <["@alice:example.org" := Some "$welcome"]>
                 (start ∅))
              (set_welcomed_users <["@alice:example.org" := Some "$welcome"]>
                 (start ∅))
              false 0
              [Deliver (OnLeave (Sample.leave "@alice:example.org" "$leave"));
               Deliver (OnLeave (Sample.leave "@alice:example.org" "$leave"));
               Reply 0 (InRedact (inl tt)); Reply 1 (InRedact (inl tt))]
              eq_refl) as (_&Hentry&Hall).
  split; [|exact Hall].
  destruct (Hentry (Some "$welcome")) as (_&_&Htrace); [by vm_compute|].
  exact Htrace.
Defined.

(** C5 fails on joins that overlap: a second join of a user, delivered
    while the coroutine of the first one waits for the support file, passes
    the test of [welcomed_users], which is made before the lock is taken,
    and the user is welcomed twice; the same when the user left in
    between. *)
Theorem overlapping_joins_welcomed_twice :
  let alice := "@alice:example.org" in
  let join1 := OnJoin (Sample.join alice "$join1") in
  let join2 := OnJoin (Sample.join alice "$join2") in
  let gone := OnLeave (Sample.leave alice "$leave") in
  let run := sys_run (handler Sample.config Sample.client)
               (mkSystem (start ∅) false 0 [] []) in
  let joined_twice :=
    run [Deliver join1; Deliver join2;
         Reply 0 (InHttp ConnectionError); Reply 0 (InSend (inl "$welcome1"));
         Run 1;
         Reply 1 (InHttp ConnectionError); Reply 1 (InSend (inl "$welcome2"))] in
  let rejoined :=
    run [Deliver join1; Deliver gone; Deliver join2;
         Reply 0 (InHttp ConnectionError); Reply 0 (InSend (inl "$welcome1"));
         Run 1; Reply 1 (InRedact (inl tt));
         Run 2;
         Reply 2 (InHttp ConnectionError); Reply 2 (InSend (inl "$welcome2"))] in
  join_welcomes alice (sys_log joined_twice) = 2%nat
  ∧ welcomed_users (sys_state joined_twice) !! alice = Some (Some "$welcome1")
  ∧ join_welcomes alice (sys_log rejoined) = 2%nat
  ∧ redactions_for alice (sys_log rejoined) = 1%nat
  ∧ welcomed_users (sys_state rejoined) !! alice = Some None.
Proof. cbv zeta. repeat split; by vm_compute. Qed.

(** The theorem of X1 on a join of the screening room by the bot itself,
    with the lock held by another coroutine. *)
Lemma join_dropped_at_once_witness :
  let r := exec (handle_member Sample.config Sample.client
                   (Sample.join "@bot:hall" "$join"))
             [InClock 1] (start ∅) true in
  trace r = [] ∧ final r = start ∅ ∧ locked r = true ∧ out r = Returned tt
  ∧ unused r = [InClock 1].
Proof.
  apply (join_dropped_at_once Sample.config Sample.client
           (Sample.join "@bot:hall" "$join") [InClock 1] (start ∅) true).
  right. right. split; [reflexivity|]. right. left. reflexivity.
Defined.

(** The theorem of X2 on a user who joins the space and then the screening
    room. *)
Lemma space_membership_tracked_witness :
  let alice := "@alice:example.org" in
  let in_space :=
    mkStateEvent true "!space:hall" alice "$space" JOIN None (Some "Alice") in
  let r := exec (handle_member Sample.config Sample.client in_space) []
             (start ∅) false in
  space_members (final r) !! alice = Some (mkMember JOIN None (Some "Alice"))
  ∧ exec (handle_member Sample.config Sample.client
            (Sample.join alice "$join")) [] (final r) false
    = mkResult (final r) false [] (Returned tt) [].
Proof.
  cbv zeta.
  destruct (space_membership_tracked Sample.config Sample.client
              (mkStateEvent true "!space:hall" "@alice:example.org" "$space"
                 JOIN None (Some "Alice"))
              (Sample.join "@alice:example.org" "$join") [] (start ∅) false)
    as (Hr&Hjoin&_);
    [reflexivity|reflexivity|discriminate|reflexivity|reflexivity|].
  split; [|exact (Hjoin eq_refl)].
  rewrite Hr. apply lookup_insert_eq.
Defined.

(** The theorem of X3 on the first join after the start of the bot. *)
Lemma failed_send_charges_nothing_witness :
  let a := mkArrival (Sample.join "@alice:example.org" "$join") 100
             ConnectionError "$welcome" 101 in
  let r := exec (handle_member Sample.config Sample.client (a_evt a))
             [InClock 100; InHttp ConnectionError; InSend (inr SendFailure);
              InClock 101] (start ∅) false in
  out r = Raised SendFailure ∧ locked r = false
  ∧ final r = start ∅.
Proof.
  cbv zeta.
  destruct (failed_send_charges_nothing Sample.config Sample.client
              (mkArrival (Sample.join "@alice:example.org" "$join") 100
                 ConnectionError "$welcome" 101)
              SendFailure (start ∅)) as (Hout&Hlock&_&_&Hfinal&_).
  - split; [reflexivity|]. split; [reflexivity|].
    split; [apply not_elem_of_empty|]. split; [discriminate|].
    split; [apply not_elem_of_empty|]. by exists "alice", "example.org".
  - reflexivity.
  - split; [exact Hout|]. split; [exact Hlock|].
    etrans; [exact Hfinal|]. by vm_compute.
Defined.

(** The theorem of X4 on a recheck asked by a user who was welcomed, with
    the counter of the limiter above its bound. *)
Lemma recheck_keeps_first_welcome_witness :
  let alice := "@alice:example.org" in
  let s := set_join_limiter_count (fun _ => 9)
             (set_welcomed_users <[alice := Some "$welcome"]> (start ∅)) in
  let r := exec (recheck_member Sample.config Sample.client
                   (mkMessageEvent "!screening:hall" alice "$recheck"))
             [InHttp ConnectionError; InSend (inl "$again")] s false in
  out r = Returned tt
  ∧ welcomed_users (final r) !! alice = Some (Some "$welcome")
  ∧ join_limiter_count (final r) = 9.
Proof.
  cbv zeta.
  destruct (recheck_keeps_first_welcome Sample.config Sample.client
              (mkMessageEvent "!screening:hall" "@alice:example.org"
                 "$recheck")
              "alice" "example.org" ConnectionError "$again" []
              (set_join_limiter_count (fun _ => 9)
                 (set_welcomed_users
                    <["@alice:example.org" := Some "$welcome"]> (start ∅)))
              false eq_refl) as (_&Hout&_&_&Hw&_&Hc&_).
  split; [exact Hout|]. split; [|exact Hc].
  etrans; [exact Hw|]. simpl. by rewrite lookup_insert_eq.
Defined.

(** The theorem of X5 on a welcomed user who leaves and comes back. *)
Lemma left_user_not_welcomed_again_witness :
  let alice := "@alice:example.org" in
  let s := set_welcomed_users <[alice := Some "$welcome"]> (start ∅) in
  let gone :=
    final (exec (handle_leave Sample.config (Sample.leave alice "$leave"))
             [InRedact (inl tt)] s false) in
  welcomed_users gone !! alice = Some None
  ∧ exec (handle_member Sample.config Sample.client
            (Sample.join alice "$again")) [] gone false
    = mkResult gone false [] (Returned tt) [].
Proof.
  cbv zeta.
  destruct (left_user_not_welcomed_again Sample.config Sample.client
              (Sample.leave "@alice:example.org" "$leave")
              (Sample.join "@alice:example.org" "$again")
              (Sample.leave "@alice:example.org" "$leave")
              (inl tt) []
              (set_welcomed_users <["@alice:example.org" := Some "$welcome"]>
                 (start ∅)))
    as (Hgone&Hjoin&_);
    [reflexivity|reflexivity|reflexivity|reflexivity|reflexivity| |].
  - exists (Some "$welcome"). simpl. apply lookup_insert_eq.
  - split; [exact Hgone|exact Hjoin].
Defined.

(** The theorem of X7 on a welcome of before the bot was started again,
    stamped with the user who reacts. *)
Lemma miss_compares_with_fetched_sender_witness :
  let alice := "@alice:example.org" in
  let evt := Sample.thumb alice "$welcome" in
  let target := mkEvent "!screening:hall" "@bot:hall" (Some alice) in
  let cached :=
    set_pending_applications <["$welcome" := Some alice]> (start ∅) in
  exec (automatic_application Sample.config Sample.client evt)
    [InEvent (inl target); InSend (inl "$received")] (start ∅) false
  = mkResult cached false
      [AGetEvent "!screening:hall" "$welcome" (inl target)] (Returned tt)
      [InSend (inl "$received")]
  ∧ trace (exec (automatic_application Sample.config Sample.client evt)
             [InSend (inl "$received")] cached false)
    = [ASend "!screening:hall"
         (_make_application_content Sample.config Sample.client alice)
         (inl "$received")].
Proof.
  cbv zeta.
  destruct (miss_compares_with_fetched_sender Sample.config Sample.client
              (Sample.thumb "@alice:example.org" "$welcome")
              (mkEvent "!screening:hall" "@bot:hall"
                 (Some "@alice:example.org"))
              (inl "$received") [] (start ∅) false)
    as (_&_&Hslip);
    [discriminate|reflexivity|reflexivity|reflexivity|].
  exact (Hslip eq_refl eq_refl).
Defined.


(** The theorem of X10 on a welcomed user who asks for a recheck and whose
    join event comes once more. *)
Lemma welcome_id_never_replaced_witness :
  let alice := "@alice:example.org" in
  let s := set_welcomed_users <[alice := Some "$welcome"]> (start ∅) in
  let steps :=
    [Deliver (OnRecheck (mkMessageEvent "!screening:hall" alice "$recheck"));
     Deliver (OnJoin (Sample.join alice "$join"));
     Reply 0 (InHttp ConnectionError); Reply 0 (InSend (inl "$again"))] in
  let sys := sys_run (handler Sample.config Sample.client)
               (mkSystem s false 0 [] []) steps in
  welcomed_users (sys_state sys) !! alice = Some (Some "$welcome")
  ∨ (welcomed_users (sys_state sys) !! alice = Some None
     ∧ ∃ evt, Deliver (OnLeave evt) ∈ steps ∧ se_sender evt = alice
         ∧ se_room_id evt = screening_room Sample.config).
Proof.
  apply (welcome_id_never_replaced Sample.config Sample.client
           (set_welcomed_users <["@alice:example.org" := Some "$welcome"]>
              (start ∅)) false 0
           [Deliver (OnRecheck (mkMessageEvent "!screening:hall"
                                  "@alice:example.org" "$recheck"));
            Deliver (OnJoin (Sample.join "@alice:example.org" "$join"));
            Reply 0 (InHttp ConnectionError);
            Reply 0 (InSend (inl "$again"))]
           "@alice:example.org" "$welcome").
  simpl. apply lookup_insert_eq.
Defined.

End BotFacts.
